(** * ParentCaseImageViewer: the view-state machine of the LWC image viewer

    A shallow embedding of
    [force-app/main/default/lwc/parentCaseImageViewer/parentCaseImageViewer.js].

    Numbers.  The component's numeric fields are JavaScript numbers.  The
    image index only ever holds integers and is modelled in [Z] (so that
    [images.length - 1] is [-1] on the empty array, as in the source).  Zoom
    and pan values are modelled as exact rationals [Q]: every zoom value the
    component can hold is a multiple of 0.25 between 1 and 4, and those (as
    well as pointer coordinates and their differences) are represented
    exactly by IEEE doubles, so [+], [-], [*], [Math.min] and [Math.max]
    agree with the exact operations.  JavaScript's [===], [<] and [>] on
    numbers compare values, hence [Qeq_bool] and [Qltb] below and [==] in
    the statements.

    The getter [imageStyle] prints arbitrary numbers into a CSS string; no
    other member reads it and it is left out. *)

From Stdlib Require Import ZArith QArith Qminmax Bool List String Lia Lqa.
From Stdlib Require Import Qround DecimalString.
Import ListNotations.

Local Open Scope string_scope.
Local Open Scope Z_scope.

(** ** JavaScript primitives used by the component *)

Module JS.

(** Result of evaluating a getter: a value, or a thrown [TypeError]
    (property access on [undefined]). *)
Inductive completion (A : Type) : Type :=
| Normal (a : A)
| TypeError.
Arguments Normal {A} a.
Arguments TypeError {A}.

(** [x < y] on numbers. *)
Definition Qltb (x y : Q) : bool :=
  match (x ?= y)%Q with Lt => true | _ => false end.

(** Truthiness of a string: only the empty string is falsy. *)
Definition truthy (s : string) : bool :=
  match s with EmptyString => false | String _ _ => true end.

(** [o || d] for a possibly [undefined] array or boolean. *)
Definition or_else {A : Type} (o : option A) (d : A) : A :=
  match o with Some a => a | None => d end.

(** [b || false] for a possibly [undefined] boolean. *)
Definition or_false (o : option bool) : bool :=
  match o with Some true => true | _ => false end.

(** Template-literal rendering of an integer. *)
Definition show (z : Z) : string := NilZero.string_of_int (Z.to_int z).

(** [a.length] *)
Definition len {A : Type} (l : list A) : Z := Z.of_nat (List.length l).

(** [a[i]] for an integer [i]: [undefined] out of range. *)
Definition index {A : Type} (l : list A) (i : Z) : option A :=
  if i <? 0 then None else nth_error l (Z.to_nat i).

End JS.
Import JS.

(** ** Data delivered by the Apex controller *)

(** One ContentVersion row, with the properties the component reads. *)
Record ContentVersion : Type := mkContentVersion {
  Id : string;
  Title : string;
  FileExtension : string;
  VersionDataUrl : option string
}.

(** The [ImageResult] wrapper returned by [getCaseImages]; either property
    may be missing, which is why the source writes [data.images || []] and
    [data.fromParentCase || false]. *)
Record ImageResult : Type := mkImageResult {
  r_images : option (list ContentVersion);
  r_fromParentCase : option bool
}.

(** The object the wire service passes to [wiredImages]: [{ error, data }],
    each possibly [undefined].  The error object is kept as its text. *)
Record WireResult : Type := mkWireResult {
  error : option string;
  data : option ImageResult
}.

(** ** The component's fields *)

Record Viewer : Type := mkViewer {
  recordId : option string;
  images : list ContentVersion;
  currentImageIndex : Z;
  errorMessage : string;
  isLoading : bool;
  hasParentCase : bool;
  zoomLevel : Q;
  panX : Q;
  panY : Q;
  isDragging : bool;
  dragStartX : Q;
  dragStartY : Q
}.

(** [minZoom], [maxZoom] and [zoomStep] are fields initialised once and never
    assigned by any method. *)
Definition minZoom : Q := 1.
Definition maxZoom : Q := 4.
Definition zoomStep : Q := 1 # 4.

(** Field values of a freshly constructed component. *)
Definition initialViewer : Viewer :=
  {| recordId := None; images := []; currentImageIndex := 0;
     errorMessage := ""; isLoading := true; hasParentCase := false;
     zoomLevel := 1; panX := 0; panY := 0;
     isDragging := false; dragStartX := 0; dragStartY := 0 |}.

(** Field assignments [this.f = v]. *)
Definition set_recordId (v : option string) (s : Viewer) : Viewer :=
  mkViewer v (images s) (currentImageIndex s) (errorMessage s) (isLoading s)
    (hasParentCase s) (zoomLevel s) (panX s) (panY s) (isDragging s)
    (dragStartX s) (dragStartY s).
Definition set_images (v : list ContentVersion) (s : Viewer) : Viewer :=
  mkViewer (recordId s) v (currentImageIndex s) (errorMessage s) (isLoading s)
    (hasParentCase s) (zoomLevel s) (panX s) (panY s) (isDragging s)
    (dragStartX s) (dragStartY s).
Definition set_currentImageIndex (v : Z) (s : Viewer) : Viewer :=
  mkViewer (recordId s) (images s) v (errorMessage s) (isLoading s)
    (hasParentCase s) (zoomLevel s) (panX s) (panY s) (isDragging s)
    (dragStartX s) (dragStartY s).
Definition set_errorMessage (v : string) (s : Viewer) : Viewer :=
  mkViewer (recordId s) (images s) (currentImageIndex s) v (isLoading s)
    (hasParentCase s) (zoomLevel s) (panX s) (panY s) (isDragging s)
    (dragStartX s) (dragStartY s).
Definition set_isLoading (v : bool) (s : Viewer) : Viewer :=
  mkViewer (recordId s) (images s) (currentImageIndex s) (errorMessage s) v
    (hasParentCase s) (zoomLevel s) (panX s) (panY s) (isDragging s)
    (dragStartX s) (dragStartY s).
Definition set_hasParentCase (v : bool) (s : Viewer) : Viewer :=
  mkViewer (recordId s) (images s) (currentImageIndex s) (errorMessage s)
    (isLoading s) v (zoomLevel s) (panX s) (panY s) (isDragging s)
    (dragStartX s) (dragStartY s).
Definition set_zoomLevel (v : Q) (s : Viewer) : Viewer :=
  mkViewer (recordId s) (images s) (currentImageIndex s) (errorMessage s)
    (isLoading s) (hasParentCase s) v (panX s) (panY s) (isDragging s)
    (dragStartX s) (dragStartY s).
Definition set_panX (v : Q) (s : Viewer) : Viewer :=
  mkViewer (recordId s) (images s) (currentImageIndex s) (errorMessage s)
    (isLoading s) (hasParentCase s) (zoomLevel s) v (panY s) (isDragging s)
    (dragStartX s) (dragStartY s).
Definition set_panY (v : Q) (s : Viewer) : Viewer :=
  mkViewer (recordId s) (images s) (currentImageIndex s) (errorMessage s)
    (isLoading s) (hasParentCase s) (zoomLevel s) (panX s) v (isDragging s)
    (dragStartX s) (dragStartY s).
Definition set_isDragging (v : bool) (s : Viewer) : Viewer :=
  mkViewer (recordId s) (images s) (currentImageIndex s) (errorMessage s)
    (isLoading s) (hasParentCase s) (zoomLevel s) (panX s) (panY s) v
    (dragStartX s) (dragStartY s).
Definition set_dragStartX (v : Q) (s : Viewer) : Viewer :=
  mkViewer (recordId s) (images s) (currentImageIndex s) (errorMessage s)
    (isLoading s) (hasParentCase s) (zoomLevel s) (panX s) (panY s)
    (isDragging s) v (dragStartY s).
Definition set_dragStartY (v : Q) (s : Viewer) : Viewer :=
  mkViewer (recordId s) (images s) (currentImageIndex s) (errorMessage s)
    (isLoading s) (hasParentCase s) (zoomLevel s) (panX s) (panY s)
    (isDragging s) (dragStartX s) v.

(** ** Getters *)

Definition cardTitle (s : Viewer) : string :=
  if hasParentCase s then "Parent Case Images" else "Case Images".

Definition noImagesMessage (s : Viewer) : string :=
  if hasParentCase s then "No images found on the parent case."
  else "No images found on this case.".

Definition renditionPrefix : string :=
  "/sfc/servlet.shepherd/version/renditionDownload?rendition=THUMB720BY480&versionId=".

Definition currentImageUrl (s : Viewer) : completion string :=
  if (0 <? len (images s)) && (currentImageIndex s <? len (images s)) then
    match index (images s) (currentImageIndex s) with
    | Some image =>
        match VersionDataUrl image with
        | Some url => if truthy url then Normal url
                      else Normal (renditionPrefix ++ Id image)
        | None => Normal (renditionPrefix ++ Id image)
        end
    | None => TypeError
    end
  else Normal "".

Definition currentImageTitle (s : Viewer) : completion string :=
  if (0 <? len (images s)) && (currentImageIndex s <? len (images s)) then
    match index (images s) (currentImageIndex s) with
    | Some image => Normal (Title image ++ "." ++ FileExtension image)
    | None => TypeError
    end
  else Normal "".

Definition imageCounter (s : Viewer) : string :=
  if 0 <? len (images s) then
    "Image " ++ show (currentImageIndex s + 1) ++ " of " ++ show (len (images s))
  else "".

Definition isMaxZoom (s : Viewer) : bool := Qle_bool maxZoom (zoomLevel s).

Definition isMinZoom (s : Viewer) : bool := Qle_bool (zoomLevel s) minZoom.

Definition hasImages (s : Viewer) : bool :=
  negb (isLoading s) && (0 <? len (images s)) && negb (truthy (errorMessage s)).

Definition showNoImagesMessage (s : Viewer) : bool :=
  negb (isLoading s) && (len (images s) =? 0) && negb (truthy (errorMessage s)).

Definition isFirstImage (s : Viewer) : bool := currentImageIndex s =? 0.

Definition isLastImage (s : Viewer) : bool :=
  currentImageIndex s =? len (images s) - 1.

(** ** Methods that only assign fields *)

Definition resetZoomAndPan (s : Viewer) : Viewer :=
  set_panY 0 (set_panX 0 (set_zoomLevel 1 s)).

Definition handlePrevious (s : Viewer) : Viewer :=
  if 0 <? currentImageIndex s then
    resetZoomAndPan (set_currentImageIndex (currentImageIndex s - 1) s)
  else s.

Definition handleNext (s : Viewer) : Viewer :=
  if currentImageIndex s <? len (images s) - 1 then
    resetZoomAndPan (set_currentImageIndex (currentImageIndex s + 1) s)
  else s.

Definition handleZoomIn (s : Viewer) : Viewer :=
  if Qltb (zoomLevel s) maxZoom then
    set_zoomLevel (Qmin (zoomLevel s + zoomStep) maxZoom) s
  else s.

Definition handleZoomOut (s : Viewer) : Viewer :=
  if Qltb minZoom (zoomLevel s) then
    let s1 := set_zoomLevel (Qmax (zoomLevel s - zoomStep) minZoom) s in
    if Qeq_bool (zoomLevel s1) minZoom then set_panY 0 (set_panX 0 s1)
    else s1
  else s.

Definition handleResetZoom (s : Viewer) : Viewer := resetZoomAndPan s.

(** ** The component in its environment

    Besides its own fields a handler can write to the console, suppress the
    default action of the event it handles, and restyle the cursor of the
    [.image-viewport] element when the template currently renders one.  The
    wire service issues a [getCaseImages] call when [recordId] is given a
    new value. *)

Inductive effect : Type :=
| ConsoleError (label payload : string)
| PreventDefault
| ApexCall (caseId : string).

Record World : Type := mkWorld {
  this : Viewer;
  (** [style.cursor] of the [.image-viewport] element; [None] when
      [querySelector] finds no such element. *)
  viewportCursor : option string;
  (** Everything emitted so far, oldest first. *)
  effects : list effect
}.

Definition initialWorld (cursor : option string) : World :=
  mkWorld initialViewer cursor [].

Definition update (f : Viewer -> Viewer) (w : World) : World :=
  mkWorld (f (this w)) (viewportCursor w) (effects w).

Definition emit (e : effect) (w : World) : World :=
  mkWorld (this w) (viewportCursor w) (effects w ++ [e]).

(** [const viewport = querySelector(...); if (viewport) viewport.style.cursor = c] *)
Definition setCursor (c : string) (w : World) : World :=
  match viewportCursor w with
  | Some _ => mkWorld (this w) (Some c) (effects w)
  | None => w
  end.

Record MouseEvent : Type := mkMouseEvent { clientX : Q; clientY : Q }.

Definition fetchErrorMessage : string :=
  "Error loading images. Please refresh the page.".

Definition renderErrorMessage : string :=
  "Unable to display this image. It may be in an unsupported format.".

Definition wiredImages (r : WireResult) (w : World) : World :=
  let w := update (set_isLoading false) w in
  match data r with
  | Some d =>
      let w := update (set_images (or_else (r_images d) [])) w in
      let w := update (set_hasParentCase (or_false (r_fromParentCase d))) w in
      let w := update (set_errorMessage "") w in
      if 0 <? len (images (this w)) then
        update resetZoomAndPan (update (set_currentImageIndex 0) w)
      else w
  | None =>
      match error r with
      | Some err =>
          let w := update (set_errorMessage fetchErrorMessage) w in
          let w := update (set_images []) w in
          let w := update (set_hasParentCase false) w in
          emit (ConsoleError "Error loading images:" err) w
      | None => w
      end
  end.

Definition handleImageError (event : string) (w : World) : World :=
  let w := emit (ConsoleError "Error loading image:" event) w in
  update (set_errorMessage renderErrorMessage) w.

Definition handleWheel (deltaY : Q) (w : World) : World :=
  let w := emit PreventDefault w in
  if Qltb deltaY 0 then update handleZoomIn w else update handleZoomOut w.

Definition handleMouseDown (event : MouseEvent) (w : World) : World :=
  if Qltb 1 (zoomLevel (this w)) then
    let w := update (set_isDragging true) w in
    let w := update (fun s => set_dragStartX (clientX event - panX s)%Q s) w in
    let w := update (fun s => set_dragStartY (clientY event - panY s)%Q s) w in
    setCursor "grabbing" w
  else w.

Definition handleMouseUp (w : World) : World :=
  let w := update (set_isDragging false) w in
  setCursor (if Qltb 1 (zoomLevel (this w)) then "grab" else "default") w.

Definition handleMouseLeave (w : World) : World :=
  if isDragging (this w) then handleMouseUp w else w.

Definition handleMouseMove (event : MouseEvent) (w : World) : World :=
  if isDragging (this w) && Qltb 1 (zoomLevel (this w)) then
    let w := emit PreventDefault w in
    let newPanX := (clientX event - dragStartX (this w))%Q in
    let newPanY := (clientY event - dragStartY (this w))%Q in
    let maxPan := (100 * zoomLevel (this w))%Q in
    let w := update (set_panX (Qmax (- maxPan) (Qmin maxPan newPanX))) w in
    update (set_panY (Qmax (- maxPan) (Qmin maxPan newPanY))) w
  else w.

(** ** Events and runs *)

Definition option_string_eqb (a b : option string) : bool :=
  match a, b with
  | Some x, Some y => String.eqb x y
  | None, None => true
  | _, _ => false
  end.

(** The host assigns the [@api recordId] property; the [@wire] binding on
    ['$recordId'] issues the query for a new, defined value. *)
Definition assignRecordId (id : option string) (w : World) : World :=
  let changed := negb (option_string_eqb (recordId (this w)) id) in
  let w := update (set_recordId id) w in
  match id with
  | Some caseId => if changed then emit (ApexCall caseId) w else w
  | None => w
  end.

Inductive event : Type :=
| SetRecordId (id : option string)
  (** the wire service delivers the outcome of the query issued for [caseId] *)
| Resolve (caseId : string) (r : WireResult)
| Previous
| Next
| ImageError (ev : string)
| ZoomIn
| ZoomOut
| ResetZoom
| Wheel (deltaY : Q)
| MouseDown (e : MouseEvent)
| MouseUp
| MouseLeave
| MouseMove (e : MouseEvent).

(** Dispatch of one event to its handler.  [wiredImages] is handed only
    [{ error, data }]: the identifier the response answers is not part of
    what the method receives. *)
Definition step (w : World) (e : event) : World :=
  match e with
  | SetRecordId id => assignRecordId id w
  | Resolve _ r => wiredImages r w
  | Previous => update handlePrevious w
  | Next => update handleNext w
  | ImageError ev => handleImageError ev w
  | ZoomIn => update handleZoomIn w
  | ZoomOut => update handleZoomOut w
  | ResetZoom => update handleResetZoom w
  | Wheel d => handleWheel d w
  | MouseDown ev => handleMouseDown ev w
  | MouseUp => handleMouseUp w
  | MouseLeave => handleMouseLeave w
  | MouseMove ev => handleMouseMove ev w
  end.

Definition run (w : World) (es : list event) : World := fold_left step es w.

Inductive reachable : World -> Prop :=
| reachable_init cursor : reachable (initialWorld cursor)
| reachable_step w e : reachable w -> reachable (step w e).

(** ** Sample data *)

Definition img (n : string) : ContentVersion :=
  mkContentVersion ("068" ++ n) ("photo" ++ n) "png" None.

Definition ready (l : list ContentVersion) (parent : bool) : WireResult :=
  mkWireResult None (Some (mkImageResult (Some l) (Some parent))).

Definition failed (reason : string) : WireResult :=
  mkWireResult (Some reason) None.

Definition three : list ContentVersion := [img "1"; img "2"; img "3"].

(** ** Predicates used in the statements *)

(** [onGrid z]: [z] is [1 + k * 0.25] for one of the thirteen steps
    [k = 0 .. 12]. *)
Definition onGrid (z : Q) : Prop :=
  exists k : Z, 0 <= k <= 12 /\ (z == 1 + inject_Z k * zoomStep)%Q.

(** What every handler preserves: the index is a valid position whenever
    there are images, the zoom is on its grid, the pan is at the origin at
    minimum zoom, and the fetch error message goes with an empty image set. *)
Record WellFormed (s : Viewer) : Prop := mkWellFormed {
  wf_index_lo : 0 <= currentImageIndex s;
  wf_index_hi : images s <> [] -> currentImageIndex s < len (images s);
  wf_zoom : onGrid (zoomLevel s);
  wf_pan : (zoomLevel s == 1)%Q -> (panX s == 0)%Q /\ (panY s == 0)%Q;
  wf_fetch_error : errorMessage s = fetchErrorMessage -> images s = []
}.

(** Both pan coordinates are within [100 * zoom] of the origin. *)
Definition panWithinLimit (s : Viewer) : Prop :=
  (- (100 * zoomLevel s) <= panX s <= 100 * zoomLevel s)%Q /\
  (- (100 * zoomLevel s) <= panY s <= 100 * zoomLevel s)%Q.

(** Zoom and pan hold their default values. *)
Definition atDefaults (s : Viewer) : Prop :=
  (zoomLevel s == 1)%Q /\ (panX s == 0)%Q /\ (panY s == 0)%Q.

Definition isConsoleError (e : effect) : bool :=
  match e with ConsoleError _ _ => true | _ => false end.

Definition isApexCall (e : effect) : bool :=
  match e with ApexCall _ => true | _ => false end.

(** Entries written to the diagnostic sink, and queries issued. *)
Definition logged (w : World) : list effect := filter isConsoleError (effects w).
Definition issued (w : World) : list effect := filter isApexCall (effects w).

(** The law as the specification words it: a response to a query for an
    identifier other than the one currently requested leaves the fields as
    they are. *)
Definition staleResponseDiscarded (w : World) (caseId : string) (r : WireResult) : Prop :=
  recordId (this w) <> Some caseId ->
  this (step w (Resolve caseId r)) = this w.

(** The user actions that change the zoom: the two buttons and the wheel. *)
Inductive zoomAction : Type :=
| PressZoomIn
| PressZoomOut
| Scroll (deltaY : Q).

Definition zoomEvent (a : zoomAction) : event :=
  match a with
  | PressZoomIn => ZoomIn
  | PressZoomOut => ZoomOut
  | Scroll d => Wheel d
  end.

(** ** Sample sessions *)

(** Three images loaded, first one shown. *)
Definition atFirstOfThree : World :=
  run (initialWorld None) [Resolve "5001" (ready three false)].

(** Three images loaded, second one shown. *)
Definition atSecondOfThree : World := run atFirstOfThree [Next].

(** Three images loaded, last one shown. *)
Definition atLastOfThree : World := run atFirstOfThree [Next; Next].

(** Three images shown, then the first one fails to render. *)
Definition renderFailed : World := step atFirstOfThree (ImageError "error").

(** A query that failed. *)
Definition fetchFailed : World :=
  run (initialWorld None) [SetRecordId (Some "5001"); Resolve "5001" (failed "boom")].

(** No identifier was ever set and the wire delivered an empty result. *)
Definition emptyFromStart : World :=
  run (initialWorld None) [Resolve "5001" (ready [] false)].

(** The second of three images was shown when the set was replaced by an
    empty one. *)
Definition emptiedAtSecond : World :=
  step atSecondOfThree (Resolve "5001" (ready [] false)).

(** Three images loaded, zoomed to 2, drag started at pointer (50, 50). *)
Definition draggingAtZoomTwo : World :=
  run (initialWorld (Some "grab"))
    [Resolve "5001" (ready three true); ZoomIn; ZoomIn; ZoomIn; ZoomIn;
     MouseDown (mkMouseEvent 50 50)].

(** A session that loads three images, zooms in, drags and zooms back out. *)
Definition dragThenZoomOut : World :=
  run (initialWorld (Some "default"))
    [SetRecordId (Some "5001"); Resolve "5001" (ready three true); ZoomIn;
     MouseDown (mkMouseEvent 50 50); MouseMove (mkMouseEvent 500 500);
     MouseUp; ZoomOut].

(** Zoomed to 2 and dragged to the pan limit on the second of three images. *)
Definition zoomedAndPanned : World :=
  run atSecondOfThree
    [ZoomIn; ZoomIn; ZoomIn; ZoomIn; MouseDown (mkMouseEvent 50 50);
     MouseMove (mkMouseEvent 500 500); MouseUp].

(** ... and then the image set is replaced by an empty one. *)
Definition replacedByEmpty : World :=
  step zoomedAndPanned (Resolve "5001" (ready [] false)).

(** Query A is issued, then query B; B's response arrives first. *)
Definition newerResolved : World :=
  run (initialWorld None)
    [SetRecordId (Some "A"); SetRecordId (Some "B");
     Resolve "B" (ready [img "b"] false)].

(** ... and then A's late response arrives. *)
Definition staleDelivered : World :=
  step newerResolved (Resolve "A" (ready [img "a"] true)).

(** ** The zoom label and event classes *)

(** [Math.round(x)]: the nearest integer, halves rounded up. *)
Definition Math_round (x : Q) : Z := Qfloor (x + (1 # 2)).

Definition zoomPercentage (s : Viewer) : string :=
  show (Math_round (zoomLevel s * 100)) ++ "%".

(** Deliveries of the wire service, as opposed to what host and user do. *)
Definition isResolve (e : event) : bool :=
  match e with Resolve _ _ => true | _ => false end.

(** Both pan coordinates are within [100 * maxZoom] of the origin. *)
Definition panWithinMax (s : Viewer) : Prop :=
  (- (100 * maxZoom) <= panX s <= 100 * maxZoom)%Q /\
  (- (100 * maxZoom) <= panY s <= 100 * maxZoom)%Q.

(** * Properties *)

(** ** Comparisons *)

Lemma Qltb_true (x y : Q) : Qltb x y = true <-> (x < y)%Q.
Proof.
  unfold Qltb. rewrite Qlt_alt. destruct (x ?= y)%Q; split; congruence.
Qed.

Lemma Qltb_false (x y : Q) : Qltb x y = false <-> (y <= x)%Q.
Proof.
  split; intro H.
  - apply Qnot_lt_le. intro L. apply Qltb_true in L. congruence.
  - destruct (Qltb x y) eqn:E; trivial.
    apply Qltb_true in E. apply Qle_not_lt in H. contradiction.
Qed.

Lemma len_nonneg {A : Type} (l : list A) : 0 <= len l.
Proof. unfold len. lia. Qed.

Lemma len_pos_iff {A : Type} (l : list A) : (0 <? len l) = true <-> l <> [].
Proof.
  unfold len. destruct l; simpl; split; intro H; try congruence; try lia.
  reflexivity.
Qed.

Lemma len_nil_iff {A : Type} (l : list A) : (0 <? len l) = false <-> l = [].
Proof.
  unfold len. destruct l; simpl; split; intro H; try congruence; try lia.
  discriminate.
Qed.

(** ** The zoom grid *)

Lemma onGrid_bounds (z : Q) : onGrid z -> (1 <= z <= 4)%Q.
Proof.
  intros (k & [Hlo Hhi] & Hz). unfold zoomStep in Hz.
  assert (0 <= inject_Z k)%Q by (change 0%Q with (inject_Z 0); now rewrite <- Zle_Qle).
  assert (inject_Z k <= 12)%Q by (change 12%Q with (inject_Z 12); now rewrite <- Zle_Qle).
  lra.
Qed.

Lemma onGrid_one : onGrid 1.
Proof. exists 0. split; [lia | reflexivity]. Qed.

Lemma onGrid_zoom_in (z : Q) :
  onGrid z -> (z < maxZoom)%Q -> onGrid (Qmin (z + zoomStep) maxZoom).
Proof.
  intros (k & [Hlo Hhi] & Hz) Hlt. unfold maxZoom, zoomStep in *.
  assert (Hk : k < 12).
  { rewrite Zlt_Qlt. change (inject_Z 12) with 12%Q. lra. }
  exists (k + 1). split; [lia |].
  rewrite inject_Z_plus. change (inject_Z 1) with 1%Q.
  assert (inject_Z k <= 11)%Q
    by (change 11%Q with (inject_Z 11); rewrite <- Zle_Qle; lia).
  destruct (Q.min_spec (z + (1 # 4)) 4) as [[L E] | [L E]]; rewrite E;
    unfold zoomStep; lra.
Qed.

Lemma onGrid_zoom_out (z : Q) :
  onGrid z -> (minZoom < z)%Q -> onGrid (Qmax (z - zoomStep) minZoom).
Proof.
  intros (k & [Hlo Hhi] & Hz) Hlt. unfold minZoom, zoomStep in *.
  assert (Hk : 0 < k).
  { rewrite Zlt_Qlt. change (inject_Z 0) with 0%Q. lra. }
  exists (k - 1). split; [lia |].
  unfold Z.sub. rewrite inject_Z_plus. change (inject_Z (- (1))) with (- (1))%Q.
  assert (1 <= inject_Z k)%Q
    by (change 1%Q with (inject_Z 1); rewrite <- Zle_Qle; lia).
  destruct (Q.max_spec (z - (1 # 4)) 1) as [[L E] | [L E]]; rewrite E;
    unfold zoomStep; lra.
Qed.

(** ** The invariant of the view state *)

(** Closes the routine fields of [WellFormed] after a handler is unfolded. *)
Ltac wf_field :=
  simpl in *;
  first
    [ assumption
    | lia
    | discriminate
    | apply onGrid_one
    | now apply onGrid_zoom_in
    | now apply onGrid_zoom_out
    | intros _; split; reflexivity
    | congruence
    | idtac ].

Ltac wf_fields := constructor; wf_field.

Lemma WellFormed_initial : WellFormed initialViewer.
Proof. wf_fields. Qed.

Lemma WellFormed_resetZoomAndPan (s : Viewer) :
  WellFormed s -> WellFormed (resetZoomAndPan s).
Proof. intros [H1 H2 H3 H4 H5]. wf_fields. Qed.

Lemma WellFormed_handlePrevious (s : Viewer) :
  WellFormed s -> WellFormed (handlePrevious s).
Proof.
  intros W. unfold handlePrevious.
  destruct (0 <? currentImageIndex s) eqn:E; trivial.
  apply Z.ltb_lt in E. destruct W as [H1 H2 H3 H4 H5].
  wf_fields. intros N. specialize (H2 N). lia.
Qed.

Lemma WellFormed_handleNext (s : Viewer) :
  WellFormed s -> WellFormed (handleNext s).
Proof.
  intros W. unfold handleNext.
  destruct (currentImageIndex s <? len (images s) - 1) eqn:E; trivial.
  apply Z.ltb_lt in E. destruct W as [H1 H2 H3 H4 H5].
  wf_fields.
Qed.

Lemma WellFormed_handleZoomIn (s : Viewer) :
  WellFormed s -> WellFormed (handleZoomIn s).
Proof.
  intros W. unfold handleZoomIn.
  destruct (Qltb (zoomLevel s) maxZoom) eqn:E; trivial.
  apply Qltb_true in E. destruct W as [H1 H2 H3 H4 H5].
  wf_fields.
  intros Z1. exfalso.
  pose proof (onGrid_bounds _ H3) as [Lo _].
  unfold maxZoom, zoomStep in *.
  destruct (Q.min_spec (zoomLevel s + (1 # 4)) 4) as [[L M] | [L M]];
    rewrite M in Z1; lra.
Qed.

Lemma WellFormed_handleZoomOut (s : Viewer) :
  WellFormed s -> WellFormed (handleZoomOut s).
Proof.
  intros W. unfold handleZoomOut.
  destruct (Qltb minZoom (zoomLevel s)) eqn:E; trivial.
  apply Qltb_true in E. destruct W as [H1 H2 H3 H4 H5]. simpl.
  destruct (Qeq_bool (Qmax (zoomLevel s - zoomStep) minZoom) minZoom) eqn:B;
    wf_fields.
  intros Z1. apply Qeq_bool_iff in Z1. unfold minZoom in *. congruence.
Qed.

(** Effect and cursor bookkeeping leaves the fields alone. *)
Lemma this_emit (e : effect) (w : World) : this (emit e w) = this w.
Proof. reflexivity. Qed.

Lemma this_setCursor (c : string) (w : World) : this (setCursor c w) = this w.
Proof. unfold setCursor. destruct (viewportCursor w); reflexivity. Qed.

Lemma this_update (f : Viewer -> Viewer) (w : World) :
  this (update f w) = f (this w).
Proof. reflexivity. Qed.

Lemma WellFormed_wiredImages (r : WireResult) (w : World) :
  WellFormed (this w) -> WellFormed (this (wiredImages r w)).
Proof.
  intros [H1 H2 H3 H4 H5]. unfold wiredImages.
  destruct (data r) as [d |]; [| destruct (error r) as [err |]]; simpl.
  - destruct (0 <? len (or_else (r_images d) [])) eqn:E; simpl.
    + apply Z.ltb_lt in E. wf_fields.
    + apply len_nil_iff in E. wf_fields.
  - wf_fields.
  - wf_fields.
Qed.

Lemma WellFormed_handleImageError (ev : string) (w : World) :
  WellFormed (this w) -> WellFormed (this (handleImageError ev w)).
Proof. intros [H1 H2 H3 H4 H5]. wf_fields. Qed.

Lemma WellFormed_handleMouseDown (ev : MouseEvent) (w : World) :
  WellFormed (this w) -> WellFormed (this (handleMouseDown ev w)).
Proof.
  intros W. unfold handleMouseDown.
  destruct (Qltb 1 (zoomLevel (this w))); trivial.
  rewrite this_setCursor. destruct W. wf_fields.
Qed.

Lemma WellFormed_handleMouseUp (w : World) :
  WellFormed (this w) -> WellFormed (this (handleMouseUp w)).
Proof.
  intros W. unfold handleMouseUp. rewrite this_setCursor.
  destruct W. wf_fields.
Qed.

Lemma WellFormed_handleMouseMove (ev : MouseEvent) (w : World) :
  WellFormed (this w) -> WellFormed (this (handleMouseMove ev w)).
Proof.
  intros W. unfold handleMouseMove.
  destruct (isDragging (this w)); simpl; trivial.
  destruct (Qltb 1 (zoomLevel (this w))) eqn:E; trivial.
  apply Qltb_true in E. destruct W. wf_fields.
  intros Z1. lra.
Qed.

Lemma WellFormed_step (w : World) (e : event) :
  WellFormed (this w) -> WellFormed (this (step w e)).
Proof.
  intros W. destruct e; cbn [step]; rewrite ?this_update.
  - unfold assignRecordId. destruct id; simpl.
    + destruct (negb _); simpl; destruct W; wf_fields.
    + destruct W; wf_fields.
  - now apply WellFormed_wiredImages.
  - now apply WellFormed_handlePrevious.
  - now apply WellFormed_handleNext.
  - now apply WellFormed_handleImageError.
  - now apply WellFormed_handleZoomIn.
  - now apply WellFormed_handleZoomOut.
  - now apply WellFormed_resetZoomAndPan.
  - unfold handleWheel. destruct (Qltb deltaY 0); rewrite this_update, this_emit.
    + now apply WellFormed_handleZoomIn.
    + now apply WellFormed_handleZoomOut.
  - now apply WellFormed_handleMouseDown.
  - now apply WellFormed_handleMouseUp.
  - unfold handleMouseLeave. destruct (isDragging (this w)); trivial.
    now apply WellFormed_handleMouseUp.
  - now apply WellFormed_handleMouseMove.
Qed.

Lemma WellFormed_run (es : list event) (w : World) :
  WellFormed (this w) -> WellFormed (this (run w es)).
Proof.
  revert w. induction es as [| e es IH]; intros w W; simpl; trivial.
  apply IH. now apply WellFormed_step.
Qed.

Lemma reachable_WellFormed (w : World) : reachable w -> WellFormed (this w).
Proof.
  induction 1 as [cursor | w e _ IH].
  - apply WellFormed_initial.
  - now apply WellFormed_step.
Qed.

Lemma reachable_run (es : list event) (w : World) :
  reachable w -> reachable (run w es).
Proof.
  revert w. induction es as [| e es IH]; intros w R; simpl; trivial.
  apply IH. now constructor.
Qed.

Lemma reachable_from_initial (cursor : option string) (es : list event) :
  reachable (run (initialWorld cursor) es).
Proof. apply reachable_run. constructor. Qed.

(** ** Zoom *)

(** C3.  After any sequence of zoom-in, zoom-out and wheel actions from the
    initial state the zoom level lies in [1, 4] and has the form
    [1 + k * 0.25] for an integer [k]; thirteen presses of zoom-in (from the
    initial state, or after three images were loaded) leave it at exactly 4,
    not 4.25, with [isMaxZoom] true. *)
Theorem zoom_stays_on_quarter_grid :
  (forall (cursor : option string) (acts : list zoomAction),
      let s := this (run (initialWorld cursor) (map zoomEvent acts)) in
      (1 <= zoomLevel s <= 4)%Q /\
      exists k : Z, (zoomLevel s == 1 + inject_Z k * (1 # 4))%Q) /\
  (forall (cursor : option string),
      let s := this (run (initialWorld cursor) (repeat ZoomIn 13)) in
      (zoomLevel s == 4)%Q /\ ~ (zoomLevel s == 4 + (1 # 4))%Q /\
      isMaxZoom s = true) /\
  (forall (cursor : option string) (caseId : string) (parent : bool),
      let s := this (run (initialWorld cursor)
                       (Resolve caseId (ready three parent) :: repeat ZoomIn 13)) in
      (zoomLevel s == 4)%Q /\ ~ (zoomLevel s == 4 + (1 # 4))%Q /\
      isMaxZoom s = true).
Proof.
  split; [| split].
  - intros cursor acts s.
    assert (G : onGrid (zoomLevel s)).
    { apply wf_zoom. apply WellFormed_run. apply WellFormed_initial. }
    split; [now apply onGrid_bounds |].
    destruct G as (k & _ & Hk). now exists k.
  - intros [c |] s; vm_compute; repeat split; discriminate.
  - intros [c |] caseId parent s; vm_compute; repeat split; discriminate.
Qed.

(** ** Pan is at the origin at minimum zoom *)

(** C5.  In every reachable state, zoom equal to 1 implies pan equal to
    (0, 0). *)
Theorem pan_origin_at_zoom_one (w : World) :
  reachable w ->
  (zoomLevel (this w) == 1)%Q ->
  (panX (this w) == 0)%Q /\ (panY (this w) == 0)%Q.
Proof.
  intros R Z1. exact (wf_pan _ (reachable_WellFormed w R) Z1).
Qed.

Lemma pan_origin_at_zoom_one_witness :
  reachable dragThenZoomOut /\
  (zoomLevel (this dragThenZoomOut) == 1)%Q /\
  (panX (this dragThenZoomOut) == 0)%Q /\ (panY (this dragThenZoomOut) == 0)%Q.
Proof.
  assert (R : reachable dragThenZoomOut) by apply reachable_from_initial.
  assert (Z1 : (zoomLevel (this dragThenZoomOut) == 1)%Q) by reflexivity.
  split; [exact R |]. split; [exact Z1 |].
  exact (pan_origin_at_zoom_one dragThenZoomOut R Z1).
Defined.

(** ** Navigation *)

(** C7.  Navigation saturates: with a non-empty image set, Previous at
    index 0 and Next at the last index change nothing at all; in a set of
    three, two presses of Next from index 0 reach index 2, where
    [isLastImage] holds and a third press leaves the index at 2. *)
Theorem navigation_saturates :
  (forall w : World,
      images (this w) <> [] -> currentImageIndex (this w) = 0 ->
      step w Previous = w) /\
  (forall w : World,
      images (this w) <> [] ->
      currentImageIndex (this w) = len (images (this w)) - 1 ->
      step w Next = w) /\
  (forall (cursor : option string) (caseId : string) (parent : bool),
      let w0 := run (initialWorld cursor) [Resolve caseId (ready three parent)] in
      let w2 := run w0 [Next; Next] in
      currentImageIndex (this w0) = 0 /\
      currentImageIndex (this w2) = 2 /\
      isLastImage (this w2) = true /\
      step w2 Next = w2).
Proof.
  split; [| split].
  - intros [s c fx] _ H. simpl in *. unfold update, handlePrevious. simpl.
    rewrite H. reflexivity.
  - intros [s c fx] _ H. simpl in *. unfold update, handleNext. simpl.
    rewrite H, Z.ltb_irrefl. reflexivity.
  - intros cursor caseId parent. destruct parent; repeat split; reflexivity.
Qed.

Lemma navigation_saturates_witness :
  step atFirstOfThree Previous = atFirstOfThree /\
  step atLastOfThree Next = atLastOfThree.
Proof.
  split.
  - apply (proj1 navigation_saturates atFirstOfThree);
      [discriminate | reflexivity].
  - apply (proj1 (proj2 navigation_saturates) atLastOfThree);
      [discriminate | reflexivity].
Defined.

(** ** Dragging *)

(** [Math.max(-m, Math.min(m, v))] for [0 <= m] is [v] clamped to [-m, m]. *)
Lemma clamp_spec (m v : Q) :
  (0 <= m)%Q ->
  let c := Qmax (- m) (Qmin m v) in
  (- m <= c <= m)%Q /\
  ((- m <= v <= m)%Q -> (c == v)%Q) /\
  ((m < v)%Q -> (c == m)%Q) /\
  ((v < - m)%Q -> (c == - m)%Q).
Proof.
  intros Hm c. subst c.
  destruct (Q.min_spec m v) as [[L1 E1] | [L1 E1]];
    destruct (Q.max_spec (- m) (Qmin m v)) as [[L2 E2] | [L2 E2]];
    rewrite E2; rewrite E1 in *; repeat split; intros; lra.
Qed.

(** What one drag-move leaves untouched while a drag is under way. *)
Lemma handleMouseMove_frame (ev : MouseEvent) (w : World) :
  let w' := handleMouseMove ev w in
  isDragging (this w') = isDragging (this w) /\
  zoomLevel (this w') = zoomLevel (this w) /\
  dragStartX (this w') = dragStartX (this w) /\
  dragStartY (this w') = dragStartY (this w).
Proof.
  unfold handleMouseMove.
  destruct (isDragging (this w) && Qltb 1 (zoomLevel (this w)));
    simpl; repeat split; reflexivity.
Qed.

Lemma handleMouseMove_within (ev : MouseEvent) (w : World) :
  isDragging (this w) = true -> (1 < zoomLevel (this w))%Q ->
  panWithinLimit (this (handleMouseMove ev w)).
Proof.
  intros D Z. unfold handleMouseMove, panWithinLimit.
  apply Qltb_true in Z. rewrite D, Z. simpl. apply Qltb_true in Z.
  assert (M : (0 <= 100 * zoomLevel (this w))%Q) by lra.
  split; apply (clamp_spec _ _ M).
Qed.

Lemma drag_moves_within (evs : list MouseEvent) (w : World) :
  isDragging (this w) = true -> (1 < zoomLevel (this w))%Q -> evs <> [] ->
  panWithinLimit (this (run w (map MouseMove evs))).
Proof.
  revert w. induction evs as [| ev rest IH]; intros w D Z N; [congruence |].
  simpl. destruct (handleMouseMove_frame ev w) as (FD & FZ & _).
  destruct rest as [| ev' rest'].
  - simpl. now apply handleMouseMove_within.
  - apply IH; [congruence | now rewrite FZ | discriminate].
Qed.

(** C4.  While a drag is under way above minimum zoom, a drag-move sets
    each pan coordinate to pointer minus anchor clamped to
    [-100 * zoom, 100 * zoom] (the candidate itself inside the range, the
    nearer bound outside it), so after any non-empty sequence of drag-moves
    both coordinates lie in that range; dragging from (50, 50) to (500, 500)
    at zoom 2 gives pan (200, 200), not (450, 450). *)
Theorem drag_move_clamps_pan :
  (forall (w : World) (ev : MouseEvent),
      isDragging (this w) = true -> (minZoom < zoomLevel (this w))%Q ->
      let s' := this (step w (MouseMove ev)) in
      let limit := (100 * zoomLevel (this w))%Q in
      let candX := (clientX ev - dragStartX (this w))%Q in
      let candY := (clientY ev - dragStartY (this w))%Q in
      (- limit <= panX s' <= limit)%Q /\ (- limit <= panY s' <= limit)%Q /\
      ((- limit <= candX <= limit)%Q -> (panX s' == candX)%Q) /\
      ((limit < candX)%Q -> (panX s' == limit)%Q) /\
      ((candX < - limit)%Q -> (panX s' == - limit)%Q) /\
      ((- limit <= candY <= limit)%Q -> (panY s' == candY)%Q) /\
      ((limit < candY)%Q -> (panY s' == limit)%Q) /\
      ((candY < - limit)%Q -> (panY s' == - limit)%Q)) /\
  (forall (w : World) (evs : list MouseEvent),
      isDragging (this w) = true -> (minZoom < zoomLevel (this w))%Q ->
      evs <> [] ->
      let s' := this (run w (map MouseMove evs)) in
      let limit := (100 * zoomLevel s')%Q in
      (- limit <= panX s' <= limit)%Q /\ (- limit <= panY s' <= limit)%Q) /\
  (forall (cursor : option string) (caseId : string) (parent : bool),
      let w := run (initialWorld cursor)
                 [Resolve caseId (ready three parent);
                  ZoomIn; ZoomIn; ZoomIn; ZoomIn;
                  MouseDown (mkMouseEvent 50 50)] in
      let s' := this (step w (MouseMove (mkMouseEvent 500 500))) in
      (zoomLevel (this w) == 2)%Q /\
      (panX (this w) == 0)%Q /\ (panY (this w) == 0)%Q /\
      (panX s' == 200)%Q /\ (panY s' == 200)%Q /\
      ~ (panX s' == 450)%Q /\ ~ (panY s' == 450)%Q).
Proof.
  split; [| split].
  - intros w ev D Z s' limit candX candY. unfold minZoom in Z.
    assert (M : (0 <= limit)%Q) by (subst limit; lra).
    subst s'. cbn [step]. unfold handleMouseMove.
    apply Qltb_true in Z. rewrite D, Z. simpl.
    destruct (clamp_spec limit candX M) as (BX & IX & HX & LX).
    destruct (clamp_spec limit candY M) as (BY & IY & HY & LY).
    tauto.
  - intros w evs D Z N. exact (drag_moves_within evs w D Z N).
  - intros [c |] caseId parent; vm_compute; repeat split; discriminate.
Qed.

Lemma drag_move_clamps_pan_witness :
  isDragging (this draggingAtZoomTwo) = true /\
  (minZoom < zoomLevel (this draggingAtZoomTwo))%Q /\
  (let s' := this (step draggingAtZoomTwo (MouseMove (mkMouseEvent 500 20))) in
   (panX s' == 200)%Q /\ (panY s' == - (30))%Q) /\
  (let s' := this (run draggingAtZoomTwo
                     (map MouseMove [mkMouseEvent 500 500; mkMouseEvent 0 900])) in
   let limit := (100 * zoomLevel s')%Q in
   (- limit <= panX s' <= limit)%Q /\ (- limit <= panY s' <= limit)%Q).
Proof.
  assert (D : isDragging (this draggingAtZoomTwo) = true) by reflexivity.
  assert (Z : (minZoom < zoomLevel (this draggingAtZoomTwo))%Q) by reflexivity.
  split; [exact D |]. split; [exact Z |]. split.
  - destruct (proj1 drag_move_clamps_pan draggingAtZoomTwo
                (mkMouseEvent 500 20) D Z)
      as (_ & _ & _ & HX & _ & IY & _ & _).
    split.
    + eapply Qeq_trans; [apply HX; reflexivity | reflexivity].
    + eapply Qeq_trans; [apply IY; split; discriminate | reflexivity].
  - assert (N : [mkMouseEvent 500 500; mkMouseEvent 0 900] <> [])
      by discriminate.
    exact (proj1 (proj2 drag_move_clamps_pan) draggingAtZoomTwo _ D Z N).
Defined.

(** ** Failures *)

(** C8.  Delivering a query failure leaves the image set empty and the
    fetch error message recorded, writes exactly one entry to the console
    and issues no query. *)
Theorem query_failure_clears_and_logs_once
    (w : World) (caseId reason : string) :
  let w' := step w (Resolve caseId (failed reason)) in
  images (this w') = [] /\
  errorMessage (this w') = fetchErrorMessage /\
  truthy (errorMessage (this w')) = true /\
  isLoading (this w') = false /\
  effects w' = (effects w ++ [ConsoleError "Error loading images:" reason])%list /\
  logged w' = (logged w ++ [ConsoleError "Error loading images:" reason])%list /\
  List.length (logged w') = S (List.length (logged w)) /\
  issued w' = issued w.
Proof.
  cbv zeta. cbn [step]. unfold wiredImages, failed, logged, issued. simpl.
  rewrite !filter_app, length_app. simpl.
  rewrite app_nil_r, Nat.add_1_r. repeat split; reflexivity.
Qed.

(** C9.  In a viewing state a render failure sets the error message to the
    unsupported-format notice and assigns no other field (image set and
    index in particular) nor the cursor, and writes one console entry; Next
    and Previous still move the index afterwards. *)
Theorem render_failure_keeps_navigation (w : World) (ev : string) :
  hasImages (this w) = true ->
  let w' := step w (ImageError ev) in
  this w' = set_errorMessage renderErrorMessage (this w) /\
  errorMessage (this w') = renderErrorMessage /\
  images (this w') = images (this w) /\
  currentImageIndex (this w') = currentImageIndex (this w) /\
  viewportCursor w' = viewportCursor w /\
  effects w' = (effects w ++ [ConsoleError "Error loading image:" ev])%list /\
  (currentImageIndex (this w) < len (images (this w)) - 1 ->
   currentImageIndex (this (step w' Next)) = currentImageIndex (this w) + 1) /\
  (0 < currentImageIndex (this w) ->
   currentImageIndex (this (step w' Previous)) = currentImageIndex (this w) - 1).
Proof.
  intros _ w'. subst w'. cbn [step]. unfold handleImageError.
  rewrite !this_update, this_emit. simpl.
  repeat split.
  - intros L. unfold handleNext. simpl.
    apply Z.ltb_lt in L. rewrite L. reflexivity.
  - intros L. unfold handlePrevious. simpl.
    apply Z.ltb_lt in L. rewrite L. reflexivity.
Qed.

Lemma render_failure_keeps_navigation_witness :
  hasImages (this atSecondOfThree) = true /\
  (let w' := step atSecondOfThree (ImageError "error") in
   images (this w') = three /\
   currentImageIndex (this (step w' Next)) = 2 /\
   currentImageIndex (this (step w' Previous)) = 0).
Proof.
  assert (V : hasImages (this atSecondOfThree) = true) by reflexivity.
  split; [exact V |].
  destruct (render_failure_keeps_navigation atSecondOfThree "error" V)
    as (_ & _ & I & _ & _ & _ & N & P).
  split; [exact I |]. split.
  - apply N. reflexivity.
  - apply P. reflexivity.
Defined.

(** ** Error message and image set *)

(** C2, as stated, fails: after a render failure the error message is set
    while the image set is still populated. *)
Lemma error_set_with_images_counterexample :
  reachable renderFailed /\
  truthy (errorMessage (this renderFailed)) = true /\
  images (this renderFailed) = three /\
  images (this renderFailed) <> [].
Proof.
  split; [| repeat split; discriminate].
  unfold renderFailed, atFirstOfThree. constructor.
  apply reachable_from_initial.
Qed.

(** C2, amended.  In every reachable state: the fetch error message implies
    an empty image set; any error message, and likewise the loading flag,
    implies that [hasImages] is false, so an error is never shown together
    with an image set that is ready for display. *)
Theorem error_excludes_ready_images (w : World) :
  reachable w ->
  (errorMessage (this w) = fetchErrorMessage -> images (this w) = []) /\
  (truthy (errorMessage (this w)) = true -> hasImages (this w) = false) /\
  (isLoading (this w) = true -> hasImages (this w) = false).
Proof.
  intros R. split; [| split].
  - exact (wf_fetch_error _ (reachable_WellFormed w R)).
  - intros T. unfold hasImages. rewrite T. simpl. apply andb_false_r.
  - intros L. unfold hasImages. rewrite L. reflexivity.
Qed.

Lemma error_excludes_ready_images_witness :
  reachable fetchFailed /\
  errorMessage (this fetchFailed) = fetchErrorMessage /\
  images (this fetchFailed) = [] /\
  hasImages (this fetchFailed) = false.
Proof.
  assert (R : reachable fetchFailed) by apply reachable_from_initial.
  destruct (error_excludes_ready_images fetchFailed R) as (E & T & _).
  split; [exact R |]. split; [reflexivity |]. split.
  - apply E. reflexivity.
  - apply T. reflexivity.
Defined.

(** ** Stale responses *)

(** C1, as stated, fails: the late response for A replaces what B's response
    had set. *)
Lemma stale_response_counterexample :
  issued newerResolved = [ApexCall "A"; ApexCall "B"] /\
  recordId (this newerResolved) = Some "B" /\
  images (this newerResolved) = [img "b"] /\
  recordId (this staleDelivered) = Some "B" /\
  images (this staleDelivered) = [img "a"] /\
  hasParentCase (this staleDelivered) = true /\
  this staleDelivered <> this newerResolved /\
  ~ staleResponseDiscarded newerResolved "A" (ready [img "a"] true).
Proof.
  assert (D : this staleDelivered <> this newerResolved) by discriminate.
  repeat split; try reflexivity; trivial.
  intros S. apply D. apply S. discriminate.
Qed.

(** C1, amended.  [wiredImages] keeps no record of the latest requested
    identifier and compares nothing: a response is applied whatever
    identifier it answers, and a data response always replaces image set,
    source flag and error message by its own. *)
Theorem every_resolution_is_applied
    (w : World) (caseId : string) (err : option string) (d : ImageResult) :
  let w' := step w (Resolve caseId (mkWireResult err (Some d))) in
  images (this w') = or_else (r_images d) [] /\
  hasParentCase (this w') = or_false (r_fromParentCase d) /\
  errorMessage (this w') = "" /\
  isLoading (this w') = false /\
  recordId (this w') = recordId (this w) /\
  effects w' = effects w /\
  (forall (other : string) (r : WireResult),
      step w (Resolve other r) = step w (Resolve caseId r)).
Proof.
  cbv zeta. cbn [step]. unfold wiredImages. simpl.
  destruct (0 <? len (or_else (r_images d) [])); simpl;
    repeat split; reflexivity.
Qed.

(** ** Resetting the view *)

Lemma atDefaults_resetZoomAndPan (s : Viewer) : atDefaults (resetZoomAndPan s).
Proof. repeat split; reflexivity. Qed.

(** Every handler either keeps the index or ends in [resetZoomAndPan]. *)
Lemma step_keeps_index_or_resets (w : World) (e : event) :
  currentImageIndex (this (step w e)) = currentImageIndex (this w) \/
  atDefaults (this (step w e)).
Proof.
  destruct e; cbn [step]; rewrite ?this_update.
  - left. unfold assignRecordId.
    destruct id; [destruct (negb _) |]; reflexivity.
  - unfold wiredImages.
    destruct (data r) as [d |]; [| destruct (error r)]; simpl;
      try (left; reflexivity).
    destruct (0 <? len (or_else (r_images d) [])); simpl.
    + right. repeat split; reflexivity.
    + left. reflexivity.
  - unfold handlePrevious. destruct (0 <? _).
    + right. apply atDefaults_resetZoomAndPan.
    + left. reflexivity.
  - unfold handleNext. destruct (_ <? _).
    + right. apply atDefaults_resetZoomAndPan.
    + left. reflexivity.
  - left. reflexivity.
  - left. unfold handleZoomIn. destruct (Qltb _ _); reflexivity.
  - left. unfold handleZoomOut. destruct (Qltb _ _); simpl; trivial.
    destruct (Qeq_bool _ _); reflexivity.
  - right. apply atDefaults_resetZoomAndPan.
  - left. unfold handleWheel, handleZoomIn, handleZoomOut. simpl.
    destruct (Qltb deltaY 0); simpl; destruct (Qltb _ _); simpl; trivial.
    destruct (Qeq_bool _ _); reflexivity.
  - left. unfold handleMouseDown. destruct (Qltb _ _); trivial.
    now rewrite this_setCursor.
  - left. unfold handleMouseUp. now rewrite this_setCursor.
  - left. unfold handleMouseLeave, handleMouseUp.
    destruct (isDragging _); trivial. now rewrite this_setCursor.
  - left. unfold handleMouseMove. destruct (_ && _); reflexivity.
Qed.

(** C6, as stated, fails: replacing the image set by an empty set resets
    neither zoom nor pan (nor the index). *)
Lemma empty_replacement_counterexample :
  images (this zoomedAndPanned) = three /\
  images (this replacedByEmpty) = [] /\
  (zoomLevel (this replacedByEmpty) == 2)%Q /\
  (panX (this replacedByEmpty) == 200)%Q /\
  (panY (this replacedByEmpty) == 200)%Q /\
  currentImageIndex (this replacedByEmpty) = 1 /\
  ~ atDefaults (this replacedByEmpty).
Proof.
  repeat split; try reflexivity.
  intros (Z1 & _). discriminate Z1.
Qed.

(** C6, amended.  Whenever an event changes the selected index, zoom is 1
    and pan is (0, 0) afterwards; a data response carrying a non-empty
    image set selects index 0 and resets zoom and pan; a data response
    carrying an empty (or no) image set replaces the image set and leaves
    index, zoom and pan as they were. *)
Theorem index_change_resets_view :
  (forall (w : World) (e : event),
      currentImageIndex (this (step w e)) <> currentImageIndex (this w) ->
      atDefaults (this (step w e))) /\
  (forall (w : World) (caseId : string) (err : option string) (d : ImageResult),
      or_else (r_images d) [] <> [] ->
      let s' := this (step w (Resolve caseId (mkWireResult err (Some d)))) in
      images s' = or_else (r_images d) [] /\
      currentImageIndex s' = 0 /\ atDefaults s') /\
  (forall (w : World) (caseId : string) (err : option string) (d : ImageResult),
      or_else (r_images d) [] = [] ->
      let s' := this (step w (Resolve caseId (mkWireResult err (Some d)))) in
      images s' = [] /\
      currentImageIndex s' = currentImageIndex (this w) /\
      zoomLevel s' = zoomLevel (this w) /\
      panX s' = panX (this w) /\ panY s' = panY (this w)).
Proof.
  split; [| split].
  - intros w e N.
    destruct (step_keeps_index_or_resets w e) as [K | D]; [contradiction | exact D].
  - intros w caseId err d N. apply len_pos_iff in N.
    cbv zeta. cbn [step]. unfold wiredImages. simpl. rewrite N. simpl.
    repeat split; reflexivity.
  - intros w caseId err d E.
    cbv zeta. cbn [step]. unfold wiredImages. simpl. rewrite E. simpl.
    repeat split; reflexivity.
Qed.

Lemma index_change_resets_view_witness :
  atDefaults (this (step zoomedAndPanned Next)) /\
  (let s' := this (step zoomedAndPanned (Resolve "5002" (ready [img "9"] false))) in
   currentImageIndex s' = 0 /\ atDefaults s') /\
  (let s' := this (step zoomedAndPanned (Resolve "5002" (ready [] false))) in
   images s' = [] /\ currentImageIndex s' = 1).
Proof.
  destruct index_change_resets_view as (A & B & C).
  split; [| split].
  - apply (A zoomedAndPanned Next). discriminate.
  - apply (B zoomedAndPanned "5002" None (mkImageResult (Some [img "9"]) (Some false))).
    discriminate.
  - destruct (C zoomedAndPanned "5002" None (mkImageResult (Some []) (Some false)))
      as (I & X & _); [reflexivity |].
    split; [exact I | exact X].
Defined.

(** ** Getters on the empty image set *)

(** C10, as stated, fails: the image set is empty and [isFirstImage] is
    false. *)
Lemma first_flag_on_empty_counterexample :
  reachable emptiedAtSecond /\
  images (this emptiedAtSecond) = [] /\
  currentImageIndex (this emptiedAtSecond) = 1 /\
  isFirstImage (this emptiedAtSecond) = false.
Proof.
  split; [| repeat split; reflexivity].
  unfold emptiedAtSecond, atSecondOfThree, atFirstOfThree.
  constructor. apply reachable_run. apply reachable_from_initial.
Qed.

(** C10, amended.  In every reachable state with an empty image set,
    [currentImageUrl], [currentImageTitle] and [imageCounter] return the
    empty string, [isLastImage] is false, and [isFirstImage] is true exactly
    when the index is 0 (as it is until a non-empty set has been navigated);
    the index is never negative. *)
Theorem getters_on_empty_set (w : World) :
  reachable w -> images (this w) = [] ->
  currentImageUrl (this w) = Normal "" /\
  currentImageTitle (this w) = Normal "" /\
  imageCounter (this w) = "" /\
  isLastImage (this w) = false /\
  0 <= currentImageIndex (this w) /\
  (isFirstImage (this w) = true <-> currentImageIndex (this w) = 0).
Proof.
  intros R E. pose proof (wf_index_lo _ (reachable_WellFormed w R)) as Lo.
  unfold currentImageUrl, currentImageTitle, imageCounter, isLastImage,
    isFirstImage.
  rewrite E. simpl. repeat split; trivial.
  - apply Z.eqb_neq. lia.
  - apply Z.eqb_eq.
  - apply Z.eqb_eq.
Qed.

Lemma getters_on_empty_set_witness :
  reachable emptyFromStart /\ images (this emptyFromStart) = [] /\
  currentImageUrl (this emptyFromStart) = Normal "" /\
  currentImageTitle (this emptyFromStart) = Normal "" /\
  imageCounter (this emptyFromStart) = "" /\
  isLastImage (this emptyFromStart) = false /\
  isFirstImage (this emptyFromStart) = true.
Proof.
  assert (R : reachable emptyFromStart) by apply reachable_from_initial.
  assert (E : images (this emptyFromStart) = []) by reflexivity.
  destruct (getters_on_empty_set emptyFromStart R E) as (U & T & C & L & _ & F).
  split; [exact R |]. split; [exact E |]. split; [exact U |].
  split; [exact T |]. split; [exact C |]. split; [exact L |].
  apply F. reflexivity.
Defined.

(** * Further properties of the component *)

(** ** The selected image *)

Lemma index_in_range {A : Type} (l : list A) (i : Z) :
  0 <= i < len l -> exists a, index l i = Some a /\ In a l.
Proof.
  intros [Lo Hi]. unfold index, len in *.
  destruct (i <? 0) eqn:E; [apply Z.ltb_lt in E; lia |].
  destruct (nth_error l (Z.to_nat i)) as [a |] eqn:N.
  - exists a. split; trivial. eapply nth_error_In; eauto.
  - apply nth_error_None in N. lia.
Qed.

Lemma append_nonempty_r (s t : string) : t <> "" -> s ++ t <> "".
Proof. destruct s; simpl; [trivial | discriminate]. Qed.

Lemma truthy_nonempty (s : string) : truthy s = true -> s <> "".
Proof. destruct s; simpl; [discriminate | discriminate]. Qed.

Lemma rendition_nonempty (id : string) : renditionPrefix ++ id <> "".
Proof. unfold renditionPrefix. simpl. discriminate. Qed.

(** The guard of [currentImageUrl] and [currentImageTitle] in a well-formed
    state: it holds exactly when there are images. *)
Lemma selection_guard (s : Viewer) :
  WellFormed s ->
  ((0 <? len (images s)) && (currentImageIndex s <? len (images s))) =
  (0 <? len (images s)).
Proof.
  intros W. destruct (0 <? len (images s)) eqn:E; trivial. simpl.
  apply Z.ltb_lt. apply (wf_index_hi _ W). now apply len_pos_iff.
Qed.

(** The url the source computes for one image. *)
Lemma WellFormed_selected (s : Viewer) :
  WellFormed s -> images s <> [] ->
  exists image : ContentVersion,
    index (images s) (currentImageIndex s) = Some image /\
    In image (images s) /\
    currentImageTitle s = Normal (Title image ++ "." ++ FileExtension image) /\
    currentImageUrl s =
      Normal (match VersionDataUrl image with
              | Some (String c u) => String c u
              | _ => renditionPrefix ++ Id image
              end).
Proof.
  intros W N.
  destruct (index_in_range (images s) (currentImageIndex s)) as (image & I & M).
  { split; [apply (wf_index_lo _ W) | apply (wf_index_hi _ W N)]. }
  exists image. split; [exact I |]. split; [exact M |].
  unfold currentImageTitle, currentImageUrl.
  rewrite (selection_guard _ W), (proj2 (len_pos_iff _) N), I.
  split; [reflexivity |].
  destruct (VersionDataUrl image) as [[| c u] |]; reflexivity.
Qed.

(** X1.  In every reachable state with a non-empty image set the current
    index designates an image of the set; [currentImageTitle] is that
    image's [Title.FileExtension] and [currentImageUrl] is its
    [VersionDataUrl] when that is a non-empty string and the rendition URL
    built from its [Id] otherwise. *)
Theorem selected_image_is_shown (w : World) :
  reachable w -> images (this w) <> [] ->
  exists image : ContentVersion,
    index (images (this w)) (currentImageIndex (this w)) = Some image /\
    In image (images (this w)) /\
    currentImageTitle (this w) =
      Normal (Title image ++ "." ++ FileExtension image) /\
    currentImageUrl (this w) =
      Normal (match VersionDataUrl image with
              | Some (String c u) => String c u
              | _ => renditionPrefix ++ Id image
              end).
Proof.
  intros R N. exact (WellFormed_selected _ (reachable_WellFormed w R) N).
Qed.

Lemma selected_image_is_shown_witness :
  reachable atSecondOfThree /\ images (this atSecondOfThree) <> [] /\
  exists image : ContentVersion,
    index (images (this atSecondOfThree))
      (currentImageIndex (this atSecondOfThree)) = Some image /\
    In image (images (this atSecondOfThree)) /\
    currentImageTitle (this atSecondOfThree) =
      Normal (Title image ++ "." ++ FileExtension image) /\
    currentImageUrl (this atSecondOfThree) =
      Normal (match VersionDataUrl image with
              | Some (String c u) => String c u
              | _ => renditionPrefix ++ Id image
              end).
Proof.
  assert (R : reachable atSecondOfThree).
  { unfold atSecondOfThree, atFirstOfThree. apply reachable_run.
    apply reachable_from_initial. }
  assert (N : images (this atSecondOfThree) <> []) by discriminate.
  split; [exact R |]. split; [exact N |].
  exact (selected_image_is_shown atSecondOfThree R N).
Defined.

(** X2.  In every reachable state [currentImageUrl] and [currentImageTitle]
    return normally (no access through [undefined]), and each returns the
    empty string exactly when the image set is empty. *)
Theorem url_and_title_never_throw (w : World) :
  reachable w ->
  exists url title : string,
    currentImageUrl (this w) = Normal url /\
    currentImageTitle (this w) = Normal title /\
    (url = "" <-> images (this w) = []) /\
    (title = "" <-> images (this w) = []).
Proof.
  intros R. pose proof (reachable_WellFormed w R) as W.
  destruct (images (this w)) as [| i0 rest] eqn:E.
  - exists "", "". unfold currentImageUrl, currentImageTitle. rewrite E.
    simpl. repeat split; trivial.
  - assert (N : images (this w) <> []) by (rewrite E; discriminate).
    destruct (WellFormed_selected _ W N) as (image & _ & _ & T & U).
    rewrite T, U. eexists. eexists.
    split; [reflexivity |]. split; [reflexivity |].
    split; split; intros H; try discriminate H; exfalso.
    + destruct (VersionDataUrl image) as [[| c u] |]; try discriminate H;
        now apply (rendition_nonempty (Id image)).
    + revert H. apply append_nonempty_r. simpl. discriminate.
Qed.

Lemma url_and_title_never_throw_witness :
  reachable emptiedAtSecond /\
  exists url title : string,
    currentImageUrl (this emptiedAtSecond) = Normal url /\
    currentImageTitle (this emptiedAtSecond) = Normal title /\
    (url = "" <-> images (this emptiedAtSecond) = []) /\
    (title = "" <-> images (this emptiedAtSecond) = []).
Proof.
  assert (R : reachable emptiedAtSecond).
  { unfold emptiedAtSecond, atSecondOfThree, atFirstOfThree. constructor.
    apply reachable_run. apply reachable_from_initial. }
  split; [exact R |]. exact (url_and_title_never_throw emptiedAtSecond R).
Defined.

(** X3.  In every reachable state with a non-empty image set the counter
    reads [Image p of n] where [n] is the number of images and the position
    [p] is the index plus one, between 1 and [n]. *)
Theorem image_counter_in_range (w : World) :
  reachable w -> images (this w) <> [] ->
  exists p n : Z,
    imageCounter (this w) = "Image " ++ show p ++ " of " ++ show n /\
    n = len (images (this w)) /\
    p = currentImageIndex (this w) + 1 /\
    1 <= p <= n.
Proof.
  intros R N. pose proof (reachable_WellFormed w R) as W.
  exists (currentImageIndex (this w) + 1), (len (images (this w))).
  unfold imageCounter. rewrite (proj2 (len_pos_iff _) N).
  pose proof (wf_index_lo _ W). pose proof (wf_index_hi _ W N).
  repeat split; lia.
Qed.

Lemma image_counter_in_range_witness :
  reachable atLastOfThree /\ images (this atLastOfThree) <> [] /\
  exists p n : Z,
    imageCounter (this atLastOfThree) = "Image " ++ show p ++ " of " ++ show n /\
    n = len (images (this atLastOfThree)) /\
    p = currentImageIndex (this atLastOfThree) + 1 /\
    1 <= p <= n.
Proof.
  assert (R : reachable atLastOfThree).
  { unfold atLastOfThree, atFirstOfThree. apply reachable_run.
    apply reachable_from_initial. }
  assert (N : images (this atLastOfThree) <> []) by discriminate.
  split; [exact R |]. split; [exact N |].
  exact (image_counter_in_range atLastOfThree R N).
Defined.

(** ** Navigation and its enablement flags *)

Lemma update_id (f : Viewer -> Viewer) (w : World) :
  f (this w) = this w -> update f w = w.
Proof. intros E. destruct w as [s c fx]. unfold update. simpl in *. now rewrite E. Qed.

Lemma images_handleNext (s : Viewer) : images (handleNext s) = images s.
Proof. unfold handleNext. destruct (_ <? _); reflexivity. Qed.


Lemma index_handleNext (s : Viewer) :
  WellFormed s -> images s <> [] ->
  currentImageIndex (handleNext s) =
  Z.min (currentImageIndex s + 1) (len (images s) - 1).
Proof.
  intros W N. pose proof (wf_index_hi _ W N). unfold handleNext.
  destruct (currentImageIndex s <? len (images s) - 1) eqn:E; simpl.
  - apply Z.ltb_lt in E. lia.
  - apply Z.ltb_ge in E. lia.
Qed.

Lemma index_handlePrevious (s : Viewer) :
  WellFormed s ->
  currentImageIndex (handlePrevious s) = Z.max (currentImageIndex s - 1) 0.
Proof.
  intros W. pose proof (wf_index_lo _ W). unfold handlePrevious.
  destruct (0 <? currentImageIndex s) eqn:E; simpl.
  - apply Z.ltb_lt in E. lia.
  - apply Z.ltb_ge in E. lia.
Qed.

(** X4.  In every reachable state [isFirstImage] is true exactly when
    Previous changes nothing. *)
Theorem first_flag_iff_previous_noop (w : World) :
  reachable w ->
  (isFirstImage (this w) = true <-> step w Previous = w).
Proof.
  intros R. pose proof (reachable_WellFormed w R) as W.
  pose proof (index_handlePrevious _ W) as P.
  unfold isFirstImage. rewrite Z.eqb_eq. cbn [step]. split.
  - intros E. apply update_id. unfold handlePrevious. now rewrite E.
  - intros E. apply (f_equal (fun x => currentImageIndex (this x))) in E.
    rewrite this_update in E. pose proof (wf_index_lo _ W). lia.
Qed.

Lemma first_flag_iff_previous_noop_witness :
  reachable atFirstOfThree /\
  (isFirstImage (this atFirstOfThree) = true <->
   step atFirstOfThree Previous = atFirstOfThree).
Proof.
  assert (R : reachable atFirstOfThree) by apply reachable_from_initial.
  split; [exact R |]. exact (first_flag_iff_previous_noop atFirstOfThree R).
Defined.

(** X5.  In every reachable state with a non-empty image set [isLastImage]
    is true exactly when Next changes nothing; on the empty image set Next
    changes nothing although [isLastImage] is false. *)
Theorem last_flag_iff_next_noop (w : World) :
  reachable w ->
  (images (this w) <> [] ->
   (isLastImage (this w) = true <-> step w Next = w)) /\
  (images (this w) = [] ->
   isLastImage (this w) = false /\ step w Next = w).
Proof.
  intros R. pose proof (reachable_WellFormed w R) as W.
  pose proof (wf_index_lo _ W) as Lo.
  unfold isLastImage. cbn [step]. split.
  - intros N. pose proof (index_handleNext _ W N) as P.
    pose proof (wf_index_hi _ W N). rewrite Z.eqb_eq. split.
    + intros E. apply update_id. unfold handleNext.
      now rewrite E, Z.ltb_irrefl.
    + intros E. apply (f_equal (fun x => currentImageIndex (this x))) in E.
      rewrite this_update in E. lia.
  - intros E. split.
    + rewrite E. apply Z.eqb_neq. simpl. lia.
    + apply update_id. unfold handleNext. rewrite E.
      replace (currentImageIndex (this w) <? len [] - 1) with false;
        [reflexivity |].
      symmetry. apply Z.ltb_ge. simpl. lia.
Qed.

Lemma last_flag_iff_next_noop_witness :
  reachable atLastOfThree /\
  (isLastImage (this atLastOfThree) = true <->
   step atLastOfThree Next = atLastOfThree) /\
  reachable emptiedAtSecond /\
  isLastImage (this emptiedAtSecond) = false /\
  step emptiedAtSecond Next = emptiedAtSecond.
Proof.
  assert (R1 : reachable atLastOfThree).
  { unfold atLastOfThree, atFirstOfThree. apply reachable_run.
    apply reachable_from_initial. }
  assert (R2 : reachable emptiedAtSecond).
  { unfold emptiedAtSecond, atSecondOfThree, atFirstOfThree. constructor.
    apply reachable_run. apply reachable_from_initial. }
  split; [exact R1 |]. split.
  - apply (proj1 (last_flag_iff_next_noop atLastOfThree R1)). discriminate.
  - split; [exact R2 |].
    apply (proj2 (last_flag_iff_next_noop emptiedAtSecond R2)). reflexivity.
Defined.



Lemma run_repeat_S (w : World) (e : event) (k : nat) :
  run w (repeat e (S k)) = run (step w e) (repeat e k).
Proof. reflexivity. Qed.

(** X7.  In every reachable state with a non-empty image set, [k] presses of
    Next lead to index [min (index + k) (length - 1)] and [k] presses of
    Previous to index [max (index - k) 0]. *)
Theorem repeated_navigation (w : World) (k : nat) :
  reachable w -> images (this w) <> [] ->
  currentImageIndex (this (run w (repeat Next k))) =
    Z.min (currentImageIndex (this w) + Z.of_nat k) (len (images (this w)) - 1) /\
  currentImageIndex (this (run w (repeat Previous k))) =
    Z.max (currentImageIndex (this w) - Z.of_nat k) 0.
Proof.
  intros R N. split.
  - revert w R N. induction k as [| k IH]; intros w R N.
    + pose proof (wf_index_hi _ (reachable_WellFormed w R) N). simpl. lia.
    + rewrite run_repeat_S.
      pose proof (reachable_WellFormed w R) as W.
      assert (N' : images (this (step w Next)) <> [])
        by (cbn [step]; rewrite this_update, images_handleNext; exact N).
      rewrite (IH (step w Next) (reachable_step w Next R) N').
      cbn [step]. rewrite this_update, images_handleNext.
      rewrite (index_handleNext _ W N).
      pose proof (wf_index_hi _ W N). lia.
  - clear N. revert w R. induction k as [| k IH]; intros w R.
    + pose proof (wf_index_lo _ (reachable_WellFormed w R)). simpl. lia.
    + rewrite run_repeat_S.
      pose proof (reachable_WellFormed w R) as W.
      rewrite (IH (step w Previous) (reachable_step w Previous R)).
      cbn [step]. rewrite this_update, (index_handlePrevious _ W).
      pose proof (wf_index_lo _ W). lia.
Qed.

Lemma repeated_navigation_witness :
  reachable atFirstOfThree /\ images (this atFirstOfThree) <> [] /\
  currentImageIndex (this (run atFirstOfThree (repeat Next 5))) =
    Z.min (currentImageIndex (this atFirstOfThree) + 5)
      (len (images (this atFirstOfThree)) - 1) /\
  currentImageIndex (this (run atFirstOfThree (repeat Previous 5))) =
    Z.max (currentImageIndex (this atFirstOfThree) - 5) 0.
Proof.
  assert (R : reachable atFirstOfThree) by apply reachable_from_initial.
  assert (N : images (this atFirstOfThree) <> []) by discriminate.
  split; [exact R |]. split; [exact N |].
  exact (repeated_navigation atFirstOfThree 5 R N).
Defined.

(** ** Zoom and its enablement flags *)

Lemma zoom_handleZoomIn (s : Viewer) :
  WellFormed s ->
  (zoomLevel (handleZoomIn s) == Qmin (zoomLevel s + zoomStep) maxZoom)%Q.
Proof.
  intros W. pose proof (onGrid_bounds _ (wf_zoom _ W)) as [Lo Hi].
  unfold handleZoomIn.
  destruct (Qltb (zoomLevel s) maxZoom) eqn:E; simpl; [reflexivity |].
  apply Qltb_false in E. unfold maxZoom, zoomStep in *.
  destruct (Q.min_spec (zoomLevel s + (1 # 4)) 4) as [[L M] | [L M]];
    rewrite M; lra.
Qed.

Lemma zoom_handleZoomOut (s : Viewer) :
  WellFormed s ->
  (zoomLevel (handleZoomOut s) == Qmax (zoomLevel s - zoomStep) minZoom)%Q.
Proof.
  intros W. pose proof (onGrid_bounds _ (wf_zoom _ W)) as [Lo Hi].
  unfold handleZoomOut.
  destruct (Qltb minZoom (zoomLevel s)) eqn:E; simpl.
  - destruct (Qeq_bool _ _); reflexivity.
  - apply Qltb_false in E. unfold minZoom, zoomStep in *.
    destruct (Q.max_spec (zoomLevel s - (1 # 4)) 1) as [[L M] | [L M]];
      rewrite M; lra.
Qed.

(** X8.  In any state [isMaxZoom] is true exactly when zoom-in changes
    nothing, and [isMinZoom] is true exactly when zoom-out changes
    nothing. *)
Theorem zoom_flags_iff_noop (w : World) :
  (isMaxZoom (this w) = true <-> step w ZoomIn = w) /\
  (isMinZoom (this w) = true <-> step w ZoomOut = w).
Proof.
  unfold isMaxZoom, isMinZoom. rewrite !Qle_bool_iff. cbn [step]. split; split.
  - intros H. apply update_id. unfold handleZoomIn.
    now rewrite (proj2 (Qltb_false _ _) H).
  - intros E. apply (f_equal (fun x => zoomLevel (this x))) in E.
    rewrite this_update in E. unfold handleZoomIn in E.
    destruct (Qltb (zoomLevel (this w)) maxZoom) eqn:G;
      [| now apply Qltb_false].
    exfalso. apply Qltb_true in G. simpl in E.
    assert (Q : (Qmin (zoomLevel (this w) + zoomStep) maxZoom
                 == zoomLevel (this w))%Q) by (rewrite E; reflexivity).
    unfold maxZoom, zoomStep in *.
    destruct (Q.min_spec (zoomLevel (this w) + (1 # 4)) 4) as [[L M] | [L M]];
      rewrite M in Q; lra.
  - intros H. apply update_id. unfold handleZoomOut.
    now rewrite (proj2 (Qltb_false _ _) H).
  - intros E. apply (f_equal (fun x => zoomLevel (this x))) in E.
    rewrite this_update in E. unfold handleZoomOut in E.
    destruct (Qltb minZoom (zoomLevel (this w))) eqn:G;
      [| now apply Qltb_false].
    exfalso. apply Qltb_true in G. simpl in E.
    assert (Q : (Qmax (zoomLevel (this w) - zoomStep) minZoom
                 == zoomLevel (this w))%Q).
    { destruct (Qeq_bool _ _); simpl in E; rewrite E; reflexivity. }
    unfold minZoom, zoomStep in *.
    destruct (Q.max_spec (zoomLevel (this w) - (1 # 4)) 1) as [[L M] | [L M]];
      rewrite M in Q; lra.
Qed.

Lemma grid_below_max (z : Q) :
  onGrid z -> (z < maxZoom)%Q -> (z + zoomStep <= maxZoom)%Q.
Proof.
  intros (k & [Lo Hi] & Hz) L. unfold maxZoom, zoomStep in *.
  assert (Hk : k < 12).
  { rewrite Zlt_Qlt. change (inject_Z 12) with 12%Q. lra. }
  assert (inject_Z k <= 11)%Q
    by (change 11%Q with (inject_Z 11); rewrite <- Zle_Qle; lia).
  lra.
Qed.

Lemma grid_above_min (z : Q) :
  onGrid z -> (minZoom < z)%Q -> (minZoom <= z - zoomStep)%Q.
Proof.
  intros (k & [Lo Hi] & Hz) L. unfold minZoom, zoomStep in *.
  assert (Hk : 0 < k).
  { rewrite Zlt_Qlt. change (inject_Z 0) with 0%Q. lra. }
  assert (1 <= inject_Z k)%Q
    by (change 1%Q with (inject_Z 1); rewrite <- Zle_Qle; lia).
  lra.
Qed.

(** X9.  In every reachable state below maximum zoom, zoom-in followed by
    zoom-out restores zoom level and pan; above minimum zoom, zoom-out
    followed by zoom-in restores the zoom level. *)
Theorem zoom_in_out_round_trip (w : World) :
  reachable w ->
  ((zoomLevel (this w) < maxZoom)%Q ->
   let s' := this (run w [ZoomIn; ZoomOut]) in
   (zoomLevel s' == zoomLevel (this w))%Q /\
   (panX s' == panX (this w))%Q /\ (panY s' == panY (this w))%Q) /\
  ((minZoom < zoomLevel (this w))%Q ->
   (zoomLevel (this (run w [ZoomOut; ZoomIn])) == zoomLevel (this w))%Q).
Proof.
  intros R. pose proof (reachable_WellFormed w R) as W.
  pose proof (onGrid_bounds _ (wf_zoom _ W)) as [Lo Hi]. split.
  - intros L. cbv zeta.
    change (this (run w [ZoomIn; ZoomOut]))
      with (handleZoomOut (handleZoomIn (this w))).
    pose proof (grid_below_max _ (wf_zoom _ W) L) as G.
    pose proof (zoom_handleZoomIn _ W) as ZI.
    pose proof (WellFormed_handleZoomIn _ W) as W1.
    pose proof (zoom_handleZoomOut _ W1) as ZO.
    assert (Z1 : (zoomLevel (handleZoomIn (this w))
                  == zoomLevel (this w) + zoomStep)%Q).
    { rewrite ZI. apply Q.min_l. exact G. }
    assert (Z2 : (zoomLevel (handleZoomOut (handleZoomIn (this w)))
                  == zoomLevel (this w))%Q).
    { rewrite ZO. unfold minZoom, zoomStep in *.
      rewrite Q.max_l; lra. }
    split; [exact Z2 |].
    assert (P1 : panX (handleZoomIn (this w)) = panX (this w) /\
                 panY (handleZoomIn (this w)) = panY (this w)).
    { unfold handleZoomIn. destruct (Qltb _ _); split; reflexivity. }
    destruct P1 as [PX PY].
    unfold handleZoomOut.
    destruct (Qltb minZoom (zoomLevel (handleZoomIn (this w)))) eqn:E;
      [| rewrite PX, PY; split; reflexivity].
    cbv zeta. simpl zoomLevel.
    destruct (Qeq_bool _ _) eqn:B; simpl; [| rewrite PX, PY; split; reflexivity].
    apply Qeq_bool_iff in B.
    assert (Z3 : (zoomLevel (this w) == 1)%Q).
    { rewrite <- Z2. unfold handleZoomOut. rewrite E. simpl.
      destruct (Qeq_bool _ _); simpl; exact B. }
    destruct (wf_pan _ W Z3) as [X0 Y0]. rewrite X0, Y0. split; reflexivity.
  - intros L.
    change (this (run w [ZoomOut; ZoomIn]))
      with (handleZoomIn (handleZoomOut (this w))).
    pose proof (grid_above_min _ (wf_zoom _ W) L) as G.
    pose proof (zoom_handleZoomOut _ W) as ZO.
    pose proof (WellFormed_handleZoomOut _ W) as W1.
    rewrite (zoom_handleZoomIn _ W1), ZO.
    unfold minZoom, maxZoom, zoomStep in *.
    rewrite (Q.max_l _ _ G). rewrite Q.min_l; lra.
Qed.

Lemma zoom_in_out_round_trip_witness :
  reachable draggingAtZoomTwo /\
  (let s' := this (run draggingAtZoomTwo [ZoomIn; ZoomOut]) in
   (zoomLevel s' == zoomLevel (this draggingAtZoomTwo))%Q /\
   (panX s' == panX (this draggingAtZoomTwo))%Q /\
   (panY s' == panY (this draggingAtZoomTwo))%Q) /\
  (zoomLevel (this (run draggingAtZoomTwo [ZoomOut; ZoomIn]))
   == zoomLevel (this draggingAtZoomTwo))%Q.
Proof.
  assert (R : reachable draggingAtZoomTwo) by apply reachable_from_initial.
  destruct (zoom_in_out_round_trip draggingAtZoomTwo R) as (A & B).
  split; [exact R |]. split.
  - apply A. reflexivity.
  - apply B. reflexivity.
Defined.

Lemma inject_of_nat_S (k : nat) :
  (inject_Z (Z.of_nat (S k)) == inject_Z (Z.of_nat k) + 1)%Q.
Proof. rewrite Nat2Z.inj_succ. unfold Z.succ. now rewrite inject_Z_plus. Qed.

Lemma inject_of_nat_nonneg (k : nat) : (0 <= inject_Z (Z.of_nat k))%Q.
Proof. change 0%Q with (inject_Z 0). rewrite <- Zle_Qle. lia. Qed.

(** X10.  In every reachable state, [k] presses of zoom-in lead to zoom
    [min (zoom + k * 0.25) 4] and [k] presses of zoom-out to zoom
    [max (zoom - k * 0.25) 1]. *)
Theorem repeated_zoom (w : World) (k : nat) :
  reachable w ->
  (zoomLevel (this (run w (repeat ZoomIn k)))
   == Qmin (zoomLevel (this w) + inject_Z (Z.of_nat k) * zoomStep) maxZoom)%Q /\
  (zoomLevel (this (run w (repeat ZoomOut k)))
   == Qmax (zoomLevel (this w) - inject_Z (Z.of_nat k) * zoomStep) minZoom)%Q.
Proof.
  intros R. split.
  - revert w R. induction k as [| k IH]; intros w R;
      pose proof (reachable_WellFormed w R) as W;
      pose proof (onGrid_bounds _ (wf_zoom _ W)) as [Lo Hi].
    + change (run w (repeat ZoomIn 0)) with w.
      change (inject_Z (Z.of_nat 0)) with 0%Q.
      unfold maxZoom, zoomStep. rewrite Q.min_l; lra.
    + rewrite run_repeat_S, (IH (step w ZoomIn) (reachable_step w ZoomIn R)).
      cbn [step]. rewrite this_update.
      pose proof (zoom_handleZoomIn _ W) as Z1.
      pose proof (inject_of_nat_S k) as S1.
      pose proof (inject_of_nat_nonneg k) as S0.
      unfold maxZoom, zoomStep in *.
      destruct (Q.min_spec (zoomLevel (this w) + (1 # 4)) 4) as [[L1 M1] | [L1 M1]];
        rewrite M1 in Z1;
        destruct (Q.min_spec
                    (zoomLevel (handleZoomIn (this w))
                     + inject_Z (Z.of_nat k) * (1 # 4)) 4) as [[L2 M2] | [L2 M2]];
        rewrite M2;
        destruct (Q.min_spec
                    (zoomLevel (this w)
                     + inject_Z (Z.of_nat (S k)) * (1 # 4)) 4) as [[L3 M3] | [L3 M3]];
        rewrite M3; lra.
  - revert w R. induction k as [| k IH]; intros w R;
      pose proof (reachable_WellFormed w R) as W;
      pose proof (onGrid_bounds _ (wf_zoom _ W)) as [Lo Hi].
    + change (run w (repeat ZoomOut 0)) with w.
      change (inject_Z (Z.of_nat 0)) with 0%Q.
      unfold minZoom, zoomStep. rewrite Q.max_l; lra.
    + rewrite run_repeat_S, (IH (step w ZoomOut) (reachable_step w ZoomOut R)).
      cbn [step]. rewrite this_update.
      pose proof (zoom_handleZoomOut _ W) as Z1.
      pose proof (inject_of_nat_S k) as S1.
      pose proof (inject_of_nat_nonneg k) as S0.
      unfold minZoom, zoomStep in *.
      destruct (Q.max_spec (zoomLevel (this w) - (1 # 4)) 1) as [[L1 M1] | [L1 M1]];
        rewrite M1 in Z1;
        destruct (Q.max_spec
                    (zoomLevel (handleZoomOut (this w))
                     - inject_Z (Z.of_nat k) * (1 # 4)) 1) as [[L2 M2] | [L2 M2]];
        rewrite M2;
        destruct (Q.max_spec
                    (zoomLevel (this w)
                     - inject_Z (Z.of_nat (S k)) * (1 # 4)) 1) as [[L3 M3] | [L3 M3]];
        rewrite M3; lra.
Qed.

Lemma repeated_zoom_witness :
  reachable atFirstOfThree /\
  (zoomLevel (this (run atFirstOfThree (repeat ZoomIn 5)))
   == Qmin (zoomLevel (this atFirstOfThree) + inject_Z (Z.of_nat 5) * zoomStep)
        maxZoom)%Q /\
  (zoomLevel (this (run atFirstOfThree (repeat ZoomOut 5)))
   == Qmax (zoomLevel (this atFirstOfThree) - inject_Z (Z.of_nat 5) * zoomStep)
        minZoom)%Q.
Proof.
  assert (R : reachable atFirstOfThree) by apply reachable_from_initial.
  split; [exact R |]. exact (repeated_zoom atFirstOfThree 5 R).
Defined.

Lemma Qfloor_half (n : Z) : Qfloor (inject_Z n + (1 # 2)) = n.
Proof.
  pose proof (Qfloor_le (inject_Z n + (1 # 2))) as Lo.
  pose proof (Qlt_floor (inject_Z n + (1 # 2))) as Hi.
  set (f := Qfloor (inject_Z n + (1 # 2))) in *.
  rewrite inject_Z_plus in Hi. change (inject_Z 1) with 1%Q in Hi.
  assert (A : f < n + 1).
  { rewrite Zlt_Qlt, inject_Z_plus. change (inject_Z 1) with 1%Q. lra. }
  assert (B : n < f + 1).
  { rewrite Zlt_Qlt, inject_Z_plus. change (inject_Z 1) with 1%Q. lra. }
  lia.
Qed.

(** X11.  In every reachable state the zoom label is one of the thirteen
    percentages [100 + 25 * k], [k = 0 .. 12], namely the one of the state's
    zoom level [1 + k * 0.25]; rounding never alters it. *)
Theorem zoom_percentage_on_grid (w : World) :
  reachable w ->
  exists k : Z,
    0 <= k <= 12 /\
    (zoomLevel (this w) == 1 + inject_Z k * (1 # 4))%Q /\
    zoomPercentage (this w) = show (100 + 25 * k) ++ "%".
Proof.
  intros R. destruct (wf_zoom _ (reachable_WellFormed w R)) as (k & B & Hz).
  exists k. split; [exact B |]. split; [exact Hz |].
  unfold zoomPercentage, Math_round. f_equal. f_equal.
  rewrite <- (Qfloor_half (100 + 25 * k)). apply Qfloor_comp.
  rewrite Hz, inject_Z_plus, inject_Z_mult. unfold zoomStep.
  change (inject_Z 100) with 100%Q. change (inject_Z 25) with 25%Q. lra.
Qed.

Lemma zoom_percentage_on_grid_witness :
  reachable draggingAtZoomTwo /\
  exists k : Z,
    0 <= k <= 12 /\
    (zoomLevel (this draggingAtZoomTwo) == 1 + inject_Z k * (1 # 4))%Q /\
    zoomPercentage (this draggingAtZoomTwo) = show (100 + 25 * k) ++ "%".
Proof.
  assert (R : reachable draggingAtZoomTwo) by apply reachable_from_initial.
  split; [exact R |]. exact (zoom_percentage_on_grid draggingAtZoomTwo R).
Defined.

(** ** Dragging and the pan bounds *)




Lemma panWithinMax_step (w : World) (e : event) :
  WellFormed (this w) -> panWithinMax (this w) -> panWithinMax (this (step w e)).
Proof.
  intros W P.
  assert (O : forall s, panWithinMax (set_panY 0 (set_panX 0 s)))
    by (intros s; unfold panWithinMax, maxZoom; simpl; lra).
  assert (ZI : panWithinMax (handleZoomIn (this w)))
    by (unfold handleZoomIn; destruct (Qltb _ _); exact P).
  assert (ZO : panWithinMax (handleZoomOut (this w))).
  { unfold handleZoomOut. destruct (Qltb _ _); [| exact P]. cbv zeta.
    destruct (Qeq_bool _ _); [apply O | exact P]. }
  destruct e; cbn [step]; rewrite ?this_update.
  - unfold assignRecordId. destruct id; [destruct (negb _) |]; exact P.
  - unfold wiredImages.
    destruct (data r) as [d |]; [| destruct (error r)]; simpl; try exact P.
    destruct (0 <? len (or_else (r_images d) [])); simpl;
      [apply (O (set_zoomLevel 1 _)) | exact P].
  - unfold handlePrevious. destruct (0 <? _); [apply O | exact P].
  - unfold handleNext. destruct (_ <? _); [apply O | exact P].
  - exact P.
  - exact ZI.
  - exact ZO.
  - apply O.
  - unfold handleWheel.
    destruct (Qltb deltaY 0); rewrite this_update, this_emit; trivial.
  - unfold handleMouseDown. destruct (Qltb _ _); [| exact P].
    rewrite this_setCursor. exact P.
  - unfold handleMouseUp. rewrite this_setCursor. exact P.
  - unfold handleMouseLeave, handleMouseUp.
    destruct (isDragging _); [| exact P].
    rewrite this_setCursor. exact P.
  - unfold handleMouseMove.
    destruct (isDragging (this w)); simpl; [| exact P].
    destruct (Qltb 1 (zoomLevel (this w))) eqn:E; [| exact P].
    apply Qltb_true in E.
    pose proof (onGrid_bounds _ (wf_zoom _ W)) as [Lo Hi].
    assert (M : (0 <= 100 * zoomLevel (this w))%Q) by lra.
    unfold panWithinMax, maxZoom. simpl.
    destruct (clamp_spec _ (clientX e - dragStartX (this w)) M) as (BX & _).
    destruct (clamp_spec _ (clientY e - dragStartY (this w)) M) as (BY & _).
    cbv zeta in BX, BY. lra.
Qed.

(** X13.  In every reachable state both pan coordinates lie within
    [100 * maxZoom = 400] of the origin. *)
Theorem pan_never_exceeds_max_limit (w : World) :
  reachable w ->
  (- (400) <= panX (this w) <= 400)%Q /\ (- (400) <= panY (this w) <= 400)%Q.
Proof.
  intros R.
  assert (P : panWithinMax (this w)).
  { induction R as [cursor | w e R IH].
    - unfold panWithinMax, maxZoom. simpl. lra.
    - apply panWithinMax_step; [now apply reachable_WellFormed | exact IH]. }
  unfold panWithinMax, maxZoom in P. lra.
Qed.

Lemma pan_never_exceeds_max_limit_witness :
  reachable zoomedAndPanned /\
  (- (400) <= panX (this zoomedAndPanned) <= 400)%Q /\
  (- (400) <= panY (this zoomedAndPanned) <= 400)%Q.
Proof.
  assert (R : reachable zoomedAndPanned).
  { unfold zoomedAndPanned, atSecondOfThree, atFirstOfThree.
    do 2 apply reachable_run. apply reachable_from_initial. }
  split; [exact R |]. exact (pan_never_exceeds_max_limit zoomedAndPanned R).
Defined.

(** X14.  Zooming never re-clamps the pan: zoom-in leaves it as it is, and
    a zoom-out that stays above minimum zoom (zoom above 1.25) lowers the
    zoom by one step and leaves the pan as it is, so a pan at the limit
    [100 * zoom] then exceeds the limit of the new zoom. *)
Theorem zoom_keeps_pan (w : World) :
  (panX (this (step w ZoomIn)) = panX (this w) /\
   panY (this (step w ZoomIn)) = panY (this w)) /\
  ((minZoom + zoomStep < zoomLevel (this w))%Q ->
   let s' := this (step w ZoomOut) in
   (zoomLevel s' == zoomLevel (this w) - zoomStep)%Q /\
   panX s' = panX (this w) /\ panY s' = panY (this w) /\
   ((panX (this w) == 100 * zoomLevel (this w))%Q ->
    (100 * zoomLevel s' < panX s')%Q)).
Proof.
  cbn [step]. rewrite !this_update. split.
  - unfold handleZoomIn. destruct (Qltb _ _); split; reflexivity.
  - intros L. cbv zeta. unfold handleZoomOut, minZoom, zoomStep in *.
    assert (G : Qltb 1 (zoomLevel (this w)) = true) by (apply Qltb_true; lra).
    rewrite G. cbv zeta. simpl zoomLevel.
    assert (M : (Qmax (zoomLevel (this w) - (1 # 4)) 1
                 == zoomLevel (this w) - (1 # 4))%Q) by (apply Q.max_l; lra).
    destruct (Qeq_bool (Qmax (zoomLevel (this w) - (1 # 4)) 1) 1) eqn:B.
    + apply Qeq_bool_iff in B. rewrite M in B. lra.
    + simpl. split; [exact M |]. split; [reflexivity |].
      split; [reflexivity |]. intros H. rewrite M, H. lra.
Qed.

Lemma zoom_keeps_pan_witness :
  (minZoom + zoomStep < zoomLevel (this zoomedAndPanned))%Q /\
  (panX (this zoomedAndPanned) == 100 * zoomLevel (this zoomedAndPanned))%Q /\
  let s' := this (step zoomedAndPanned ZoomOut) in
  (zoomLevel s' == zoomLevel (this zoomedAndPanned) - zoomStep)%Q /\
  (100 * zoomLevel s' < panX s')%Q.
Proof.
  assert (L : (minZoom + zoomStep < zoomLevel (this zoomedAndPanned))%Q)
    by reflexivity.
  assert (H : (panX (this zoomedAndPanned)
               == 100 * zoomLevel (this zoomedAndPanned))%Q) by reflexivity.
  split; [exact L |]. split; [exact H |].
  destruct (proj2 (zoom_keeps_pan zoomedAndPanned) L) as (Z & _ & _ & P).
  split; [exact Z | exact (P H)].
Defined.

(** ** What is displayed *)

(** X15.  In any state exactly one of the four display conditions holds:
    loading, an error message (once loaded), [hasImages], or
    [showNoImagesMessage]. *)
Theorem display_conditions_partition (s : Viewer) :
  (Nat.b2n (isLoading s)
   + Nat.b2n (negb (isLoading s) && truthy (errorMessage s))
   + Nat.b2n (hasImages s)
   + Nat.b2n (showNoImagesMessage s) = 1)%nat.
Proof.
  unfold hasImages, showNoImagesMessage.
  pose proof (len_nonneg (images s)) as L.
  destruct (0 <? len (images s)) eqn:A; destruct (len (images s) =? 0) eqn:B;
    [apply Z.ltb_lt in A; apply Z.eqb_eq in B; lia | | |
     apply Z.ltb_ge in A; apply Z.eqb_neq in B; lia];
    destruct (isLoading s); destruct (truthy (errorMessage s)); reflexivity.
Qed.

(** X16.  After a data response the viewer shows the images exactly when
    the delivered list is non-empty and the no-images message otherwise
    (also when the list is missing); card title and no-images message name
    the parent case exactly when [fromParentCase] is true. *)
Theorem data_response_display
    (w : World) (caseId : string) (err : option string) (d : ImageResult) :
  let s' := this (step w (Resolve caseId (mkWireResult err (Some d)))) in
  (or_else (r_images d) [] <> [] ->
   hasImages s' = true /\ showNoImagesMessage s' = false) /\
  (or_else (r_images d) [] = [] ->
   hasImages s' = false /\ showNoImagesMessage s' = true) /\
  cardTitle s' =
    (if or_false (r_fromParentCase d) then "Parent Case Images"
     else "Case Images") /\
  noImagesMessage s' =
    (if or_false (r_fromParentCase d) then "No images found on the parent case."
     else "No images found on this case.").
Proof.
  cbv zeta. cbn [step]. unfold wiredImages. simpl.
  unfold hasImages, showNoImagesMessage, cardTitle, noImagesMessage.
  destruct (0 <? len (or_else (r_images d) [])) eqn:E; simpl; rewrite E.
  - apply Z.ltb_lt in E.
    assert (B : (len (or_else (r_images d) []) =? 0) = false)
      by (apply Z.eqb_neq; lia).
    rewrite B. split; [intros _; split; reflexivity |].
    split; [intros N; rewrite N in E; unfold len in E; simpl in E; lia |].
    split; reflexivity.
  - pose proof (proj1 (len_nil_iff _) E) as N. rewrite N. simpl.
    split; [intros C; congruence |].
    split; [intros _; split; reflexivity |].
    split; reflexivity.
Qed.

Lemma data_response_display_witness :
  (let s' := this (step fetchFailed (Resolve "5001" (ready three true))) in
   hasImages s' = true /\ showNoImagesMessage s' = false) /\
  (let s' := this (step atLastOfThree
                     (Resolve "5001" (mkWireResult None
                                        (Some (mkImageResult None None))))) in
   hasImages s' = false /\ showNoImagesMessage s' = true).
Proof.
  split.
  - apply (proj1 (data_response_display fetchFailed "5001" None
                    (mkImageResult (Some three) (Some true)))).
    discriminate.
  - apply (proj1 (proj2 (data_response_display atLastOfThree "5001" None
                           (mkImageResult None None)))).
    reflexivity.
Defined.

(** ** What the handlers leave alone *)

(** What an event other than a wire delivery does to the loader's fields. *)
Lemma step_loader_frame (w : World) (e : event) :
  isResolve e = false ->
  images (this (step w e)) = images (this w) /\
  hasParentCase (this (step w e)) = hasParentCase (this w) /\
  isLoading (this (step w e)) = isLoading (this w) /\
  (errorMessage (this (step w e)) = errorMessage (this w) \/
   errorMessage (this (step w e)) = renderErrorMessage).
Proof.
  intros NR. destruct e; try discriminate NR; cbn [step]; rewrite ?this_update.
  - unfold assignRecordId. destruct id; [destruct (negb _) |]; simpl; auto.
  - unfold handlePrevious. destruct (0 <? _); simpl; auto.
  - unfold handleNext. destruct (_ <? _); simpl; auto.
  - simpl. auto.
  - unfold handleZoomIn. destruct (Qltb _ _); simpl; auto.
  - unfold handleZoomOut. destruct (Qltb _ _); simpl; auto.
    destruct (Qeq_bool _ _); simpl; auto.
  - simpl. auto.
  - unfold handleWheel, handleZoomIn, handleZoomOut.
    destruct (Qltb deltaY 0); rewrite this_update, this_emit;
      destruct (Qltb _ _); simpl; auto.
    destruct (Qeq_bool _ _); simpl; auto.
  - unfold handleMouseDown. destruct (Qltb _ _); auto.
    rewrite this_setCursor. simpl. auto.
  - unfold handleMouseUp. rewrite this_setCursor. simpl. auto.
  - unfold handleMouseLeave, handleMouseUp. destruct (isDragging _); auto.
    rewrite this_setCursor. simpl. auto.
  - unfold handleMouseMove. destruct (_ && _); simpl; auto.
Qed.

(** X17.  Only a wire delivery changes the image set, the source flag or
    the loading flag: every other event leaves the three as they are. *)
Theorem only_wire_changes_data (w : World) (e : event) :
  isResolve e = false ->
  images (this (step w e)) = images (this w) /\
  hasParentCase (this (step w e)) = hasParentCase (this w) /\
  isLoading (this (step w e)) = isLoading (this w).
Proof.
  intros NR. destruct (step_loader_frame w e NR) as (I & P & L & _).
  repeat split; assumption.
Qed.

Lemma only_wire_changes_data_witness :
  isResolve (SetRecordId (Some "5002")) = false /\
  images (this (step atLastOfThree (SetRecordId (Some "5002")))) =
    images (this atLastOfThree) /\
  hasParentCase (this (step atLastOfThree (SetRecordId (Some "5002")))) =
    hasParentCase (this atLastOfThree) /\
  isLoading (this (step atLastOfThree (SetRecordId (Some "5002")))) =
    isLoading (this atLastOfThree).
Proof.
  assert (NR : isResolve (SetRecordId (Some "5002")) = false) by reflexivity.
  split; [exact NR |].
  exact (only_wire_changes_data atLastOfThree (SetRecordId (Some "5002")) NR).
Defined.

(** X18.  Once an error message is set it stays set, and [hasImages] stays
    false, under every event other than a wire delivery: navigation, zoom
    and drag never clear it. *)
Theorem error_persists_until_delivery (w : World) (e : event) :
  truthy (errorMessage (this w)) = true ->
  isResolve e = false ->
  truthy (errorMessage (this (step w e))) = true /\
  hasImages (this (step w e)) = false.
Proof.
  intros T NR. destruct (step_loader_frame w e NR) as (_ & _ & _ & [E | E]).
  - assert (T' : truthy (errorMessage (this (step w e))) = true)
      by (rewrite E; exact T).
    split; [exact T' |]. unfold hasImages. rewrite T'. apply andb_false_r.
  - assert (T' : truthy (errorMessage (this (step w e))) = true)
      by (rewrite E; reflexivity).
    split; [exact T' |]. unfold hasImages. rewrite T'. apply andb_false_r.
Qed.

Lemma error_persists_until_delivery_witness :
  truthy (errorMessage (this renderFailed)) = true /\
  isResolve Next = false /\
  truthy (errorMessage (this (step renderFailed Next))) = true /\
  hasImages (this (step renderFailed Next)) = false.
Proof.
  assert (T : truthy (errorMessage (this renderFailed)) = true) by reflexivity.
  assert (NR : isResolve Next = false) by reflexivity.
  split; [exact T |]. split; [exact NR |].
  exact (error_persists_until_delivery renderFailed Next T NR).
Defined.

(** X19.  Every wire delivery, also one carrying neither data nor error,
    clears the loading flag, and no event ever sets it again. *)
Theorem loading_never_returns :
  (forall (w : World) (caseId : string) (r : WireResult),
      isLoading (this (step w (Resolve caseId r))) = false) /\
  (forall (w : World) (e : event),
      isLoading (this w) = false -> isLoading (this (step w e)) = false).
Proof.
  assert (A : forall (w : World) (caseId : string) (r : WireResult),
             isLoading (this (step w (Resolve caseId r))) = false).
  { intros w caseId r. cbn [step]. unfold wiredImages.
    destruct (data r) as [d |]; [| destruct (error r)]; simpl; trivial.
    destruct (0 <? _); reflexivity. }
  split; [exact A |].
  intros w e L. destruct (isResolve e) eqn:NR.
  - destruct e; try discriminate NR. apply A.
  - destruct (step_loader_frame w e NR) as (_ & _ & E & _). now rewrite E.
Qed.

Lemma loading_never_returns_witness :
  isLoading (this atFirstOfThree) = false /\
  isLoading (this (step atFirstOfThree (SetRecordId (Some "5002")))) = false.
Proof.
  assert (L : isLoading (this atFirstOfThree) = false) by reflexivity.
  split; [exact L |].
  exact (proj2 loading_never_returns atFirstOfThree (SetRecordId (Some "5002")) L).
Defined.

(** ** The end of a drag *)

(** X20.  After the button is released, after the pointer leaves during a
    drag, and after a zoom reset, a pointer move changes nothing; leaving
    assigns the fields exactly as releasing does. *)
Theorem move_is_inert_after_drag_end (w : World) (ev : MouseEvent) :
  step (step w MouseUp) (MouseMove ev) = step w MouseUp /\
  step (step w ResetZoom) (MouseMove ev) = step w ResetZoom /\
  this (step w MouseLeave) = this (step w MouseUp) /\
  isDragging (this (step w MouseLeave)) = false.
Proof.
  cbn [step]. repeat split.
  - unfold handleMouseMove, handleMouseUp. rewrite this_setCursor. reflexivity.
  - unfold handleMouseMove.
    replace (Qltb 1 (zoomLevel (this (update handleResetZoom w)))) with false
      by reflexivity.
    rewrite andb_false_r. reflexivity.
  - unfold handleMouseLeave, handleMouseUp. rewrite this_setCursor.
    destruct (isDragging (this w)) eqn:D; [now rewrite this_setCursor |].
    destruct w as [[] c fx]. simpl in *. now subst.
  - unfold handleMouseLeave, handleMouseUp.
    destruct (isDragging (this w)) eqn:D; [now rewrite this_setCursor | exact D].
Qed.

(** X21.  At minimum zoom (zoom not above 1) a press starts no drag and a
    following move pans nothing: the pair leaves fields, cursor and effects
    exactly as they were. *)
Theorem no_drag_at_minimum_zoom (w : World) (p q : MouseEvent) :
  (zoomLevel (this w) <= 1)%Q ->
  step w (MouseDown p) = w /\
  run w [MouseDown p; MouseMove q] = w.
Proof.
  intros Z. apply Qltb_false in Z.
  assert (D : step w (MouseDown p) = w).
  { cbn [step]. unfold handleMouseDown. now rewrite Z. }
  split; [exact D |].
  unfold run. cbn [fold_left]. rewrite D. cbn [step].
  unfold handleMouseMove. rewrite Z, andb_false_r. reflexivity.
Qed.

Lemma no_drag_at_minimum_zoom_witness :
  (zoomLevel (this atSecondOfThree) <= 1)%Q /\
  step atSecondOfThree (MouseDown (mkMouseEvent 50 50)) = atSecondOfThree /\
  run atSecondOfThree
    [MouseDown (mkMouseEvent 50 50); MouseMove (mkMouseEvent 500 500)]
  = atSecondOfThree.
Proof.
  assert (Z : (zoomLevel (this atSecondOfThree) <= 1)%Q) by discriminate.
  split; [exact Z |].
  exact (no_drag_at_minimum_zoom atSecondOfThree (mkMouseEvent 50 50)
           (mkMouseEvent 500 500) Z).
Defined.
